(** * Email assistant (notebooks/module-3/email_assistant.py)

    A shallow embedding of the inbox tools, the dynamic prompt and the
    human-in-the-loop decision prompt of the email assistant, with the
    properties of the inbox action loop stated over them.

    Conventions of the embedding:
    - a Python [str] is held as its UTF-8 encoding, a [string] of bytes;
      [strip] removes the blanks Python's does, ASCII or not;
    - an email (a [dict] with the keys "id", "from", "subject", "body") is a
      record; the argument [dict] of a tool call is an association list in
      insertion order;
    - the session state is passed explicitly; a tool returns either a string
      or a [Command] whose [update] lists the state keys it writes;
    - the console is a pair of the lines still to be read and the output
      written so far, threaded through a small error monad. *)

From Stdlib Require Import String Ascii List DecimalString DecimalNat.
From stdpp Require Import base option list strings gmap.
Import ListNotations.

Local Open Scope string_scope.
Local Open Scope list_scope.

(** ** Python string helpers *)

Module Text.

(** A text is held as its UTF-8 encoding, one [ascii] per byte. *)
Definition byte (c : ascii) : N := N_of_ascii c.

Definition continuation (c : ascii) : bool :=
  ((128 <=? byte c) && (byte c <=? 191))%N.

(** The first character (code point) of a text and the text after it;
    [None] for the empty text and for bytes that do not start a well-formed
    UTF-8 sequence. *)
Definition decode1 (s : string) : option (N * string) :=
  match s with
  | EmptyString => None
  | String b0 s1 =>
      let n0 := byte b0 in
      if (n0 <? 128)%N then Some (n0, s1)
      else
        match s1 with
        | String b1 s2 =>
            if negb (continuation b1) then None
            else if ((194 <=? n0) && (n0 <=? 223))%N then
              Some (((n0 - 192) * 64 + (byte b1 - 128))%N, s2)
            else
              match s2 with
              | String b2 s3 =>
                  if negb (continuation b2) then None
                  else if ((224 <=? n0) && (n0 <=? 239))%N then
                    let cp := ((n0 - 224) * 4096 + (byte b1 - 128) * 64
                               + (byte b2 - 128))%N in
                    if ((2048 <=? cp)
                        && negb ((55296 <=? cp) && (cp <=? 57343)))%N
                    then Some (cp, s3) else None
                  else
                    match s3 with
                    | String b3 s4 =>
                        if negb (continuation b3) then None
                        else if ((240 <=? n0) && (n0 <=? 244))%N then
                          let cp := ((n0 - 240) * 262144
                                     + (byte b1 - 128) * 4096
                                     + (byte b2 - 128) * 64
                                     + (byte b3 - 128))%N in
                          if ((65536 <=? cp) && (cp <=? 1114111))%N
                          then Some (cp, s4) else None
                        else None
                    | EmptyString => None
                    end
              | EmptyString => None
              end
        | EmptyString => None
        end
  end.

(** The characters [str.isspace] accepts, which are those [str.strip]
    removes: U+0009..U+000D, U+001C..U+0020, U+0085, U+00A0, U+1680,
    U+2000..U+200A, U+2028, U+2029, U+202F, U+205F and U+3000. *)
Definition is_space (cp : N) : bool :=
  (((9 <=? cp) && (cp <=? 13)) || ((28 <=? cp) && (cp <=? 32))
   || (cp =? 133) || (cp =? 160) || (cp =? 5760)
   || ((8192 <=? cp) && (cp <=? 8202))
   || (cp =? 8232) || (cp =? 8233) || (cp =? 8239) || (cp =? 8287)
   || (cp =? 12288))%N.

(** [s.lstrip()]: the leading blanks are dropped one character at a time.
    Every step takes at least one byte, so the length of the text bounds
    the number of steps. *)
Fixpoint lstrip_from (steps : nat) (s : string) : string :=
  match steps with
  | O => s
  | S steps' =>
      match decode1 s with
      | Some (cp, rest) => if is_space cp then lstrip_from steps' rest else s
      | None => s
      end
  end.

Definition lstrip (s : string) : string := lstrip_from (String.length s) s.

(** A text that is one blank character and nothing else. *)
Definition one_space (s : string) : bool :=
  match decode1 s with
  | Some (cp, EmptyString) => is_space cp
  | _ => false
  end.

(** [s.rstrip()]: going back from the end, what is left of the text after
    a byte is dropped when, with that byte in front, it is a blank. *)
Fixpoint rstrip (s : string) : string :=
  match s with
  | EmptyString => EmptyString
  | String c s' =>
      let t := String c (rstrip s') in
      if one_space t then EmptyString else t
  end.

(** [s.strip()] *)
Definition strip (s : string) : string := rstrip (lstrip s).

Definition lower_char (c : ascii) : ascii :=
  let n := nat_of_ascii c in
  if ((65 <=? n) && (n <=? 90))%nat then ascii_of_nat (n + 32) else c.

(** The Kelvin sign U+212A, the one character outside ASCII whose lower
    case is an ASCII letter ([k]). *)
Definition is_kelvin (b0 b1 b2 : ascii) : bool :=
  ((byte b0 =? 226) && (byte b1 =? 132) && (byte b2 =? 170))%N.

(** [s.lower()].  The letters A..Z and the Kelvin sign get their lower
    case; the bytes of every other character outside ASCII are kept.
    Python gives those characters a lower case that is outside ASCII as
    well, so the result equals a given ASCII word here exactly when it
    does in Python, which is all the scripts ask of a lowered text. *)
Fixpoint lower (s : string) : string :=
  match s with
  | EmptyString => EmptyString
  | String c s1 =>
      match s1 with
      | String c2 (String c3 s3) =>
          if is_kelvin c c2 c3 then String "k" (lower s3)
          else String (lower_char c) (lower s1)
      | _ => String (lower_char c) (lower s1)
      end
  end.

(** [sep.join(l)] *)
Fixpoint join (sep : string) (l : list string) : string :=
  match l with
  | [] => ""
  | [x] => x
  | x :: l' => x +:+ sep +:+ join sep l'
  end.

(** [c * n] for a one-character string *)
Fixpoint repeat_char (c : ascii) (n : nat) : string :=
  match n with
  | O => ""
  | S n' => String c (repeat_char c n')
  end.

(** The line feed, Python's "\n". *)
Definition nl : string := String (ascii_of_nat 10) "".

(** [str(n)] for a non-negative integer *)
Definition str_of_nat (n : nat) : string :=
  NilZero.string_of_uint (Nat.to_uint n).

(** Truthiness of a string: [if s:] *)
Definition truthy (s : string) : bool :=
  match s with EmptyString => false | _ => true end.

End Text.

(** ** 1. Sample data and 2. state schema *)

(** An inbox entry; the fields are the dict keys "id", "from", "subject"
    and "body". *)
Record Email := {
  e_id : string;
  e_from : string;
  e_subject : string;
  e_body : string
}.

Definition SAMPLE_INBOX : list Email := [
  {| e_id := "1";
     e_from := "jane@example.com";
     e_subject := "Coffee this weekend?";
     e_body := "Hey! Are you free this Saturday for coffee? I found a great new café downtown. Let me know!" |};
  {| e_id := "2";
     e_from := "boss@company.com";
     e_subject := "Q3 Report Review";
     e_body := "Hi, could you review the Q3 report and send me your comments by end of day Thursday? Thanks." |};
  {| e_id := "3";
     e_from := "deals@spammy-cruises.biz";
     e_subject := "YOU WON A FREE CRUISE!!!";
     e_body := "Congratulations! You have been selected for a FREE luxury cruise. Click here to claim your prize now!!!" |};
  {| e_id := "4";
     e_from := "mike@example.com";
     e_subject := "Hike on Sunday?";
     e_body := "Hey, a group of us are hiking the ridge trail this Sunday morning. Want to join? We're meeting at 8am at the trailhead." |};
  {| e_id := "5";
     e_from := "hr@company.com";
     e_subject := "Mandatory Compliance Training Reminder";
     e_body := "This is a reminder that all employees must complete the annual compliance training module by Friday. Please log in to the training portal to complete it." |}
].

Inductive Message :=
  | HumanMessage (content : string)
  | AIMessage (content : string)
  | ToolMessage (content : string) (tool_call_id : string).

(** [InboxState]: the agent state with the two keys the schema adds.  The
    tools index [state["inbox"]] directly, so the key is always present;
    [processed_ids] is read with [.get("processed_ids", [])] and may be
    absent. *)
Record InboxState := {
  messages : list Message;
  inbox : list Email;
  processed_ids : option (list string)
}.

(** [state.get("processed_ids", [])] *)
Definition get_processed_ids (state : InboxState) : list string :=
  default [] (processed_ids state).

Record ToolRuntime := {
  state : InboxState;
  tool_call_id : string
}.

(** The [update] dict of a [Command]: each state key is either written
    ([Some]) or left out ([None]); the messages are those to add. *)
Record Command := {
  upd_inbox : option (list Email);
  upd_processed_ids : option (list string);
  upd_messages : list Message
}.

(** [x in l] on a list of strings *)
Definition py_in (x : string) (l : list string) : bool :=
  existsb (String.eqb x) l.

(** ** 3. Tools *)

Definition status_of (processed : list string) (email : Email) : string :=
  if py_in (e_id email) processed then "[DONE]" else "[NEW]".

Definition inbox_line (processed : list string) (email : Email) : string :=
  status_of processed email +:+ " ID:" +:+ e_id email
    +:+ " From:" +:+ e_from email +:+ " Subject:" +:+ e_subject email.

(** The local [lines] of [check_inbox] when the loop ends: one
    [lines.append] per email, in iteration order. *)
Definition check_inbox_lines (runtime : ToolRuntime) : list string :=
  let processed := get_processed_ids (state runtime) in
  fold_left (fun lines email => lines ++ [inbox_line processed email])
            (inbox (state runtime)) [].

Definition check_inbox (runtime : ToolRuntime) : string :=
  Text.join Text.nl (check_inbox_lines runtime).

Definition not_found (email_id : string) : string :=
  "Email with ID " +:+ email_id +:+ " not found.".

Fixpoint read_email_loop (email_id : string) (l : list Email) : string :=
  match l with
  | [] => not_found email_id
  | email :: l' =>
      if String.eqb (e_id email) email_id
      then "From: " +:+ e_from email +:+ Text.nl
           +:+ "Subject: " +:+ e_subject email +:+ Text.nl
           +:+ "Body: " +:+ e_body email
      else read_email_loop email_id l'
  end.

Definition read_email (email_id : string) (runtime : ToolRuntime) : string :=
  read_email_loop email_id (inbox (state runtime)).

(** The search loop of [reply_to_email]: [recipient] is the sender of the
    first email with the given id, [None] when the loop ends without a
    match. *)
Fixpoint find_recipient (email_id : string) (l : list Email) : option string :=
  match l with
  | [] => None
  | email :: l' =>
      if String.eqb (e_id email) email_id then Some (e_from email)
      else find_recipient email_id l'
  end.

(** [processed_ids = list(state.get("processed_ids", []));
     processed_ids.append(email_id)] *)
Definition appended_ids (email_id : string) (state : InboxState) : list string :=
  get_processed_ids state ++ [email_id].

Definition reply_to_email (email_id body : string) (runtime : ToolRuntime)
  : Command :=
  match find_recipient email_id (inbox (state runtime)) with
  | None =>
      {| upd_inbox := None;
         upd_processed_ids := None;
         upd_messages :=
           [ToolMessage (not_found email_id) (tool_call_id runtime)] |}
  | Some recipient =>
      {| upd_inbox := None;
         upd_processed_ids := Some (appended_ids email_id (state runtime));
         upd_messages :=
           [ToolMessage ("Reply sent to " +:+ recipient +:+ ": " +:+ body)
                        (tool_call_id runtime)] |}
  end.

(** [found]: whether some email of the inbox has the given id, the test
    of [delete_email]; [reply_to_email] finds its recipient exactly when it
    holds. *)
Definition found (email_id : string) (s : InboxState) : bool :=
  existsb (fun email => String.eqb (e_id email) email_id) (inbox s).

Definition delete_email (email_id : string) (runtime : ToolRuntime) : Command :=
  if negb (found email_id (state runtime)) then
    {| upd_inbox := None;
       upd_processed_ids := None;
       upd_messages :=
         [ToolMessage (not_found email_id) (tool_call_id runtime)] |}
  else
    {| upd_inbox := None;
       upd_processed_ids := Some (appended_ids email_id (state runtime));
       upd_messages :=
         [ToolMessage ("Email " +:+ email_id +:+ " deleted.")
                      (tool_call_id runtime)] |}.

(** ** 4. Dynamic prompt *)

Definition remaining (state : InboxState) : nat :=
  length (List.filter (fun e => negb (py_in (e_id e) (get_processed_ids state)))
                      (inbox state)).

Record ModelRequest := { request_state : InboxState }.

Definition ALL_PROCESSED_PROMPT : string :=
  "All emails have been processed. Let the user know you are done "
  +:+ "and summarize the actions you took.".

(** [request.state.get("inbox", [])] is the inbox itself: the key is always
    in the state. *)
Definition inbox_prompt (request : ModelRequest) : string :=
  let remaining := remaining (request_state request) in
  if Nat.eqb remaining 0 then ALL_PROCESSED_PROMPT
  else
    "You are an email assistant. There are " +:+ Text.str_of_nat remaining
    +:+ " unprocessed email(s) in the inbox. "
    +:+ "Work through them one at a time: check the inbox, read each unprocessed email, "
    +:+ "then either reply or delete it. For spam or junk mail, delete it. "
    +:+ "For legitimate emails, draft a polite reply. "
    +:+ "Always use the reply_to_email or delete_email tools to take action — never just describe what you would do.".

(** ** 5. The agent's tools and the state they act on *)

(** The four tools registered with the agent, with their arguments. *)
Inductive ToolCall :=
  | CheckInbox
  | ReadEmail (email_id : string)
  | ReplyToEmail (email_id body : string)
  | DeleteEmail (email_id : string).

Inductive ToolResult :=
  | ReturnsStr (s : string)
  | ReturnsCommand (c : Command).

Definition invoke_tool (call : ToolCall) (runtime : ToolRuntime) : ToolResult :=
  match call with
  | CheckInbox => ReturnsStr (check_inbox runtime)
  | ReadEmail email_id => ReturnsStr (read_email email_id runtime)
  | ReplyToEmail email_id body =>
      ReturnsCommand (reply_to_email email_id body runtime)
  | DeleteEmail email_id => ReturnsCommand (delete_email email_id runtime)
  end.

(** [interrupt_on]: the tools that wait for a human decision. *)
Definition interrupt_on (call : ToolCall) : bool :=
  match call with
  | CheckInbox | ReadEmail _ => false
  | ReplyToEmail _ _ | DeleteEmail _ => true
  end.

(** Modelled from the spec: the commit of a tool's result into the session
    state, which the agent runtime does and the script does not contain
    (section 4.3: control returns with the updated Store and ProcessedSet
    visible).  A key of the update replaces the state's value, a key left
    out keeps it, and the messages are added at the end. *)
Definition apply_update (s : InboxState) (u : Command) : InboxState :=
  {| messages := messages s ++ upd_messages u;
     inbox := default (inbox s) (upd_inbox u);
     processed_ids :=
       match upd_processed_ids u with
       | Some ids => Some ids
       | None => processed_ids s
       end |}.

(** A tool that returns a string only has a [ToolMessage] with it added. *)
Definition apply_result (s : InboxState) (tool_call_id : string)
    (r : ToolResult) : InboxState :=
  match r with
  | ReturnsStr txt =>
      apply_update s {| upd_inbox := None; upd_processed_ids := None;
                        upd_messages := [ToolMessage txt tool_call_id] |}
  | ReturnsCommand u => apply_update s u
  end.

(** One executed tool call: the tool runs on the current state and its
    result is folded into it. *)
Definition exec (s : InboxState) (c : string * ToolCall) : InboxState :=
  apply_result s (fst c)
    (invoke_tool (snd c) {| state := s; tool_call_id := fst c |}).

Definition exec_all (calls : list (string * ToolCall)) (s : InboxState)
  : InboxState :=
  fold_left exec calls s.

(** The set the spec calls ProcessedSet, and the ids of the Store. *)
Definition ProcessedSet (s : InboxState) : gset string :=
  list_to_set (get_processed_ids s).

Definition store_ids (s : InboxState) : list string := e_id <$> inbox s.

(** ** 6. The console and the decision prompt *)

(** The argument dict of a tool call, in insertion order. *)
Definition dict : Type := list (string * string).

Definition dict_keys (d : dict) : list string := fst <$> d.

Fixpoint dict_get (key : string) (d : dict) : option string :=
  match d with
  | [] => None
  | (k, v) :: d' => if String.eqb k key then Some v else dict_get key d'
  end.

(** [d[key] = value]: an existing key keeps its place, a new one goes last. *)
Fixpoint dict_set (key value : string) (d : dict) : dict :=
  match d with
  | [] => [(key, value)]
  | (k, v) :: d' =>
      if String.eqb k key then (k, value) :: d'
      else (k, v) :: dict_set key value d'
  end.

Record ActionRequest := {
  name : string;
  args : dict
}.

Inductive Decision :=
  | Approve
  | Reject (message : string)
  | Edit (edited_name : string) (edited_args : dict).

(** What the script writes: a printed line, the prompt of an [input], and
    the one line that formats a whole dict. *)
Inductive ConsoleOut :=
  | PrintLine (line : string)
  | Prompt (text : string)
  | PrintCurrentArgs (tool_args : dict).

Record Console := {
  stdin : list string;
  stdout : list ConsoleOut
}.

Inductive Exn := EOFError | NameError.

Inductive Outcome (A : Type) :=
  | Returned (a : A) (c : Console)
  | Raised (e : Exn).
Arguments Returned {A} a c.
Arguments Raised {A} e.

Definition IO (A : Type) : Type := Console -> Outcome A.

#[global] Instance IO_ret : MRet IO := fun A a c => Returned a c.

#[global] Instance IO_bind : MBind IO := fun A B f m c =>
  match m c with
  | Returned a c' => f a c'
  | Raised e => Raised e
  end.

Definition raise {A : Type} (e : Exn) : IO A := fun _ => Raised e.

Definition print (out : ConsoleOut) : IO unit := fun c =>
  Returned tt {| stdin := stdin c; stdout := stdout c ++ [out] |}.

(** [input(text)]: writes the prompt and takes the next line; [EOFError]
    when there is none. *)
Definition input (text : string) : IO string := fun c =>
  match stdin c with
  | [] => Raised EOFError
  | line :: rest =>
      Returned line {| stdin := rest; stdout := stdout c ++ [Prompt text] |}
  end.

Definition rule : string := Text.repeat_char "-" 60.

Definition DECISION_PROMPT : string :=
  Text.nl +:+ "  Decision — (a)pprove / (r)eject / (e)dit: ".

Definition UNRECOGNIZED : string :=
  "  Unrecognized choice, approving by default.".

Fixpoint print_args (tool_args : dict) : IO unit :=
  match tool_args with
  | [] => mret tt
  | (key, value) :: rest =>
      print (PrintLine ("  " +:+ key +:+ ": " +:+ value)) ;; print_args rest
  end.

(** The loop of the edit branch: one [input] per key of [tool_args]; a
    non-empty stripped line replaces the value in [edited_args]. *)
Fixpoint edit_loop (keys : list string) (edited_args : dict) : IO dict :=
  match keys with
  | [] => mret edited_args
  | key :: keys' =>
      line ← input ("  New value for '" +:+ key +:+ "' (Enter to keep): ");
      let new_val := Text.strip line in
      edit_loop keys'
        (if Text.truthy new_val then dict_set key new_val edited_args
         else edited_args)
  end.

(** The body of [for i, action in enumerate(action_requests)]: shows the
    proposed action and turns the operator's answer into a decision. *)
Definition prompt_decision (action : ActionRequest) : IO Decision :=
  let tool_name := name action in
  let tool_args := args action in
  print (PrintLine (Text.nl +:+ rule)) ;;
  print (PrintLine ("  PROPOSED ACTION: " +:+ tool_name)) ;;
  print (PrintLine rule) ;;
  print_args tool_args ;;
  print (PrintLine rule) ;;
  line ← input DECISION_PROMPT;
  let choice := Text.lower (Text.strip line) in
  if String.eqb choice "a" then mret Approve
  else if String.eqb choice "r" then
    line ← input "  Reason for rejection: ";
    let reason := Text.strip line in
    mret (Reject reason)
  else if String.eqb choice "e" then
    print (PrintCurrentArgs tool_args) ;;
    edited_args ← edit_loop (dict_keys tool_args) tool_args;
    mret (Edit tool_name edited_args)
  else
    print (PrintLine UNRECOGNIZED) ;;
    mret Approve.

(** The [for] loop over the batch.  [decision] is the script's variable of
    that name: unbound ([None]) before its first assignment, and
    overwritten by every pass. *)
Fixpoint for_action_requests (action_requests : list ActionRequest)
    (decision : option Decision) : IO (option Decision) :=
  match action_requests with
  | [] => mret decision
  | action :: rest =>
      d ← prompt_decision action;
      for_action_requests rest (Some d)
  end.

Record Interrupt := {
  action_requests : option (list ActionRequest)
}.

Record Response := {
  interrupts : list Interrupt;
  response_messages : list Message;
  response_processed_ids : option (list string)
}.

(** One pass of the [while] body up to the resume: the decisions handed to
    [Command(resume={"decisions": [decision]})], with the value [decision]
    has afterwards. *)
Definition hitl_round (interrupt : Interrupt) (decision : option Decision)
  : IO (list Decision * option Decision) :=
  let action_requests := default [] (action_requests interrupt) in
  decision' ← for_action_requests action_requests decision;
  match decision' with
  | None => raise NameError
  | Some d => mret ([d], decision')
  end.

Section Session.

(** The agent with its checkpointed thread, and its resumption with a
    list of decisions. *)
Context {Agent : Type}.
Variable resume : Agent -> list Decision -> Agent * Response.

(** The [while response.get("__interrupt__")] loop; [None] when the
    given number of rounds does not reach a response without
    interrupt. *)
Fixpoint hitl_loop (fuel : nat) (agent : Agent) (response : Response)
    (decision : option Decision) : IO (option (Agent * Response)) :=
  match interrupts response with
  | [] => mret (Some (agent, response))
  | interrupt :: _ =>
      match fuel with
      | O => mret None
      | S fuel' =>
          r ← hitl_round interrupt decision;
          let (agent', response') := resume agent (fst r) in
          hitl_loop fuel' agent' response' (snd r)
      end
  end.

End Session.

(** The state of the initial invocation of the demo block. *)
Definition INITIAL_STATE : InboxState :=
  {| messages :=
       [HumanMessage
          ("Please process all emails in my inbox. "
           +:+ "Check the inbox first, then read and handle each email one at a time.")];
     inbox := SAMPLE_INBOX;
     processed_ids := Some [] |}.

(** ** The action gate *)

(** A named request bound to one of the registered tools: each parameter
    is taken from the argument dict by its name. *)
Definition tool_call_of (request : ActionRequest) : option ToolCall :=
  let a := args request in
  if String.eqb (name request) "check_inbox" then Some CheckInbox
  else if String.eqb (name request) "read_email" then
    ReadEmail <$> dict_get "email_id" a
  else if String.eqb (name request) "reply_to_email" then
    email_id ← dict_get "email_id" a;
    body ← dict_get "body" a;
    Some (ReplyToEmail email_id body)
  else if String.eqb (name request) "delete_email" then
    DeleteEmail <$> dict_get "email_id" a
  else None.

Definition apply_request (s : InboxState) (tool_call_id : string)
    (request : ActionRequest) : InboxState :=
  match tool_call_of request with
  | Some call => exec s (tool_call_id, call)
  | None => s
  end.

(** Modelled from the spec: the Action Gate's [resolve] (section 4.2),
    which the script leaves to the framework's human-in-the-loop middleware
    and which is not part of the sources.  [approve] applies the request as
    proposed, [edit] applies it with the substituted arguments, [reject]
    applies nothing and hands the reason upstream. *)
Definition resolve (s : InboxState) (tool_call_id : string)
    (request : ActionRequest) (d : Decision) : InboxState * option string :=
  match d with
  | Approve => (apply_request s tool_call_id request, None)
  | Edit n a => (apply_request s tool_call_id {| name := n; args := a |}, None)
  | Reject reason => (s, Some reason)
  end.

(** ** The interactive chat loops (modules 1 and 2)

    The personal chef and the wedding planner end with the same loop: read a
    line, skip it when blank, stop on a quit word, otherwise stream the
    agent's answer.  The agent is the framework's; it is a parameter here:
    [stream agent text] is the agent after the turn, with the content of
    each token it streamed. *)

Module Chat.

(** What the loop writes: [print(s)], [print(s, end="")] and the prompt of
    an [input]. *)
Inductive Out :=
  | Line (s : string)
  | Text (s : string)
  | Ask (prompt : string).

(** How a run ends: the [break] on a quit word, with the lines not read, or
    the [EOFError] of an [input] that finds no line. *)
Inductive Run (Agent : Type) :=
  | Quit (agent : Agent) (unread : list string) (out : list Out)
  | Eof (agent : Agent) (out : list Out).
Arguments Quit {Agent} agent unread out.
Arguments Eof {Agent} agent out.

Definition QUIT_WORDS : list string := ["quit"; "exit"; "q"].

(** The tokens the inner [for] prints: those whose content is not empty. *)
Definition streamed (tokens : list string) : list Out :=
  Text <$> List.filter Text.truthy tokens.

Section Loop.

Context {Agent : Type}.
Variable stream : Agent -> string -> Agent * list string.

(** [while True:] with its two exits; [label] is the text printed before an
    answer and [goodbye] the line printed on a quit word. *)
Fixpoint chat_loop (label goodbye : string) (agent : Agent)
    (stdin : list string) (out : list Out) : Run Agent :=
  match stdin with
  | [] => Eof agent (out ++ [Ask "You: "])
  | line :: rest =>
      let out := out ++ [Ask "You: "] in
      let user_input := Text.strip line in
      if negb (Text.truthy user_input) then
        chat_loop label goodbye agent rest out
      else if py_in (Text.lower user_input) QUIT_WORDS then
        Quit agent rest (out ++ [Line goodbye])
      else
        let (agent', tokens) := stream agent user_input in
        chat_loop label goodbye agent' rest
          (out ++ [Text label] ++ streamed tokens ++ [Line Text.nl])
  end.

Definition CHEF_BANNER : list Out :=
  [Line (Text.repeat_char "=" 60);
   Line "  Welcome to your Personal Chef!";
   Line "  Tell me what ingredients you have and I'll find recipes.";
   Line "  Type 'quit' to exit.";
   Line (Text.repeat_char "=" 60);
   Line ""].

(** module-1: the personal chef's session. *)
Definition personal_chef (agent : Agent) (stdin : list string) : Run Agent :=
  chat_loop (Text.nl +:+ "Chef: ") (Text.nl +:+ "Bon appétit! Goodbye.")
            agent stdin CHEF_BANNER.

Definition PLANNER_BANNER : list Out :=
  [Line (Text.repeat_char "=" 60);
   Line "  Wedding Planner - Multi-Agent System";
   Line "  Describe your dream wedding and we'll plan it!";
   Line "  e.g. 'Plan a summer wedding in Napa Valley for 150";
   Line "        guests with a $50k budget'";
   Line "  Type 'quit' to exit.";
   Line (Text.repeat_char "=" 60);
   Line ""].

(** module-2: the wedding planner's session. *)
Definition wedding_planner (agent : Agent) (stdin : list string) : Run Agent :=
  chat_loop (Text.nl +:+ "Planner: ")
            (Text.nl +:+ "Congratulations on your upcoming wedding! Goodbye.")
            agent stdin PLANNER_BANNER.

End Loop.

(** A line that ends the session. *)
Definition is_quit (line : string) : bool :=
  py_in (Text.lower (Text.strip line)) QUIT_WORDS.

(** A line that reaches the agent: not blank and not a quit word. *)
Definition is_query (line : string) : bool :=
  Text.truthy (Text.strip line) && negb (is_quit line).

(** The lines read before the first quit word, and those after it. *)
Fixpoint before_quit (stdin : list string) : list string :=
  match stdin with
  | [] => []
  | line :: rest => if is_quit line then [] else line :: before_quit rest
  end.

Fixpoint after_quit (stdin : list string) : option (list string) :=
  match stdin with
  | [] => None
  | line :: rest => if is_quit line then Some rest else after_quit rest
  end.

(** The texts handed to the agent, in order. *)
Definition queries (stdin : list string) : list string :=
  Text.strip <$> List.filter is_query (before_quit stdin).

(** The agent as a run leaves it. *)
Definition agent_of {Agent : Type} (r : Run Agent) : Agent :=
  match r with
  | Quit agent _ _ | Eof agent _ => agent
  end.

(** The agent after a sequence of turns. *)
Definition turns {Agent : Type} (stream : Agent -> string -> Agent * list string)
    (texts : list string) (agent : Agent) : Agent :=
  fold_left (fun a text => fst (stream a text)) texts agent.

End Chat.

(** Modelled from the spec: the AwaitingApproval step of the session loop
    (section 4.3) for an interrupt with one pending request, of which the
    script holds the first half only.  The round of the script collects the
    decision and hands it over; the gate, which is the framework's, resolves
    the request with the decision handed over. *)
Definition approval_step (s : InboxState) (tool_call_id : string)
    (action : ActionRequest) (decision : option Decision)
  : IO (InboxState * option string) :=
  r ← hitl_round {| action_requests := Some [action] |} decision;
  mret (match fst r with
        | d :: _ => resolve s tool_call_id action d
        | [] => (s, None)
        end).

(** ** Notions used in the statements *)

(** The id a mutating call targets. *)
Definition target (call : ToolCall) : option string :=
  match call with
  | ReplyToEmail email_id _ | DeleteEmail email_id => Some email_id
  | CheckInbox | ReadEmail _ => None
  end.

(** The ids a sequence of calls appends to [processed_ids]: those of its
    mutating calls whose target is in the inbox, in call order. *)
Definition marked_by (s : InboxState) (calls : list (string * ToolCall))
  : list string :=
  omap (fun c => match target (snd c) with
                 | Some i => if found i s then Some i else None
                 | None => None
                 end) calls.

(** [read_email]'s answer for a record. *)
Definition email_text (email : Email) : string :=
  "From: " +:+ e_from email +:+ Text.nl
  +:+ "Subject: " +:+ e_subject email +:+ Text.nl
  +:+ "Body: " +:+ e_body email.

(** A record with the given id has a row in the listing [check_inbox]
    builds from the state. *)
Definition listed (email_id : string) (s : InboxState) : Prop :=
  ∃ (i : nat) (email : Email),
    inbox s !! i = Some email ∧ e_id email = email_id
    ∧ check_inbox_lines {| state := s; tool_call_id := "" |} !! i
      = Some (inbox_line (get_processed_ids s) email).

Definition arg_line (kv : string * string) : ConsoleOut :=
  PrintLine ("  " +:+ fst kv +:+ ": " +:+ snd kv).

(** What the script shows of a proposed action before it asks. *)
Definition banner (action : ActionRequest) : list ConsoleOut :=
  [PrintLine (Text.nl +:+ rule);
   PrintLine ("  PROPOSED ACTION: " +:+ name action);
   PrintLine rule]
  ++ (arg_line <$> args action) ++ [PrintLine rule].

Definition edit_prompt (key : string) : ConsoleOut :=
  Prompt ("  New value for '" +:+ key +:+ "' (Enter to keep): ").

(** The operator's line as the script compares it. *)
Definition choice_of (line : string) : string := Text.lower (Text.strip line).

(** The value an argument has after the operator's line for it. *)
Definition edited_value (original line : string) : string :=
  if Text.truthy (Text.strip line) then Text.strip line else original.

Definition apply_edits (tool_args : dict) (lines : list string) : dict :=
  zip_with (fun kv line => (fst kv, edited_value (snd kv) line))
           tool_args lines.

(** The number of times the decision prompt was written. *)
Definition is_decision_prompt (o : ConsoleOut) : bool :=
  match o with
  | Prompt text => String.eqb text DECISION_PROMPT
  | _ => false
  end.

Definition decision_prompts (out : list ConsoleOut) : nat :=
  length (List.filter is_decision_prompt out).

(** A line the edit branch takes as "keep the value". *)
Definition blank (line : string) : Prop := Text.strip line = "".

(** What a console computation that returned has done: it took some lines
    from the front of the input and added to the end of the output. *)
Definition advanced (c c' : Console) (used : list string)
    (extra : list ConsoleOut) : Prop :=
  stdin c = used ++ stdin c' ∧ stdout c' = stdout c ++ extra.

(** * Properties *)

(** ** Stripping *)

Lemma decode1_shorter (s rest : string) (cp : N) :
  Text.decode1 s = Some (cp, rest) →
  (String.length rest < String.length s)%nat.
Proof.
  unfold Text.decode1.
  destruct s as [|b0 [|b1 [|b2 [|b3 s4]]]]; cbn [String.length];
    repeat match goal with
           | |- context [if ?b then _ else _] => destruct b
           end;
    intros H; try discriminate H; injection H as _ <-;
    cbn [String.length]; lia.
Qed.

(** The steps [lstrip] allows itself are enough: what it returns does not
    start with a blank. *)
Lemma lstrip_no_leading_blank (s : string) :
  match Text.decode1 (Text.lstrip s) with
  | Some (cp, _) => Text.is_space cp = false
  | None => True
  end.
Proof.
  unfold Text.lstrip.
  assert (G : ∀ steps t, (String.length t ≤ steps)%nat →
              match Text.decode1 (Text.lstrip_from steps t) with
              | Some (cp, _) => Text.is_space cp = false
              | None => True
              end); [|by apply G].
  induction steps as [|steps IH]; intros t Hlen.
  - destruct t; [exact I|simpl in Hlen; lia].
  - cbn [Text.lstrip_from].
    destruct (Text.decode1 t) as [[cp rest]|] eqn:D.
    + destruct (Text.is_space cp) eqn:Sp.
      * apply IH. apply decode1_shorter in D. lia.
      * by rewrite D.
    + by rewrite D.
Qed.

(** A continuation byte starts no character. *)
Lemma continuation_high (c : ascii) :
  Text.continuation c = true → (Text.byte c <? 128)%N = false
    ∧ ((194 <=? Text.byte c) && (Text.byte c <=? 223))%N = false
    ∧ ((224 <=? Text.byte c) && (Text.byte c <=? 239))%N = false
    ∧ ((240 <=? Text.byte c) && (Text.byte c <=? 244))%N = false.
Proof.
  unfold Text.continuation. intros H.
  apply andb_true_iff in H as [H1 H2].
  apply N.leb_le in H1, H2.
  repeat split.
  - apply N.ltb_ge. lia.
  - apply andb_false_iff. left. apply N.leb_gt. lia.
  - apply andb_false_iff. left. apply N.leb_gt. lia.
  - apply andb_false_iff. left. apply N.leb_gt. lia.
Qed.

(** A text that is one blank is stripped to nothing. *)
Lemma rstrip_one_space (t : string) :
  Text.one_space t = true → Text.rstrip t = "".
Proof.
  unfold Text.one_space, Text.decode1; cbv zeta.
  destruct t as [|b0 [|b1 [|b2 [|b3 t4]]]].
  - done.
  - destruct (Text.byte b0 <? 128)%N eqn:A; [|discriminate].
    intros H. cbn [Text.rstrip]. unfold Text.one_space, Text.decode1; cbv zeta.
    by rewrite A, H.
  - destruct (Text.byte b0 <? 128)%N eqn:A; [discriminate|].
    destruct (Text.continuation b1) eqn:C1; [|discriminate]. cbn [negb].
    destruct ((194 <=? Text.byte b0) && (Text.byte b0 <=? 223))%N eqn:B; [|discriminate].
    intros H. cbn [Text.rstrip].
    destruct (continuation_high b1 C1) as (L1 & _).
    assert (E1 : Text.one_space (String b1 "") = false).
    { unfold Text.one_space, Text.decode1; cbv zeta. by rewrite L1. }
    rewrite E1. unfold Text.one_space at 1, Text.decode1; cbv zeta.
    rewrite A, C1. cbn [negb]. by rewrite B, H.
  - destruct (Text.byte b0 <? 128)%N eqn:A; [discriminate|].
    destruct (Text.continuation b1) eqn:C1; [|discriminate]. cbn [negb].
    destruct ((194 <=? Text.byte b0) && (Text.byte b0 <=? 223))%N eqn:B; [discriminate|].
    destruct (Text.continuation b2) eqn:C2; [|discriminate]. cbn [negb].
    destruct ((224 <=? Text.byte b0) && (Text.byte b0 <=? 239))%N eqn:B3; [|discriminate].
    match goal with |- context [if ?b then _ else _] => destruct b eqn:V end; [|discriminate].
    intros H. cbn [Text.rstrip].
    destruct (continuation_high b1 C1) as (L1 & M1 & _).
    destruct (continuation_high b2 C2) as (L2 & _).
    assert (E2 : Text.one_space (String b2 "") = false).
    { unfold Text.one_space, Text.decode1; cbv zeta. by rewrite L2. }
    rewrite E2.
    assert (E1 : Text.one_space (String b1 (String b2 "")) = false).
    { unfold Text.one_space, Text.decode1; cbv zeta. rewrite L1, C2. cbn [negb]. by rewrite M1. }
    rewrite E1. unfold Text.one_space at 1, Text.decode1; cbv zeta.
    rewrite A, C1. cbn [negb]. rewrite B, C2. cbn [negb]. by rewrite B3, V, H.
  - destruct (Text.byte b0 <? 128)%N eqn:A; [discriminate|].
    destruct (Text.continuation b1) eqn:C1; [|discriminate]. cbn [negb].
    destruct ((194 <=? Text.byte b0) && (Text.byte b0 <=? 223))%N eqn:B; [discriminate|].
    destruct (Text.continuation b2) eqn:C2; [|discriminate]. cbn [negb].
    destruct ((224 <=? Text.byte b0) && (Text.byte b0 <=? 239))%N eqn:B3.
    { match goal with |- context [if ?b then _ else _] => destruct b eqn:V end; discriminate. }
    destruct (Text.continuation b3) eqn:C3; [|discriminate]. cbn [negb].
    destruct ((240 <=? Text.byte b0) && (Text.byte b0 <=? 244))%N eqn:B4; [|discriminate].
    match goal with |- context [if ?b then _ else _] => destruct b eqn:V end; [|discriminate].
    destruct t4; [|discriminate].
    (* a four-byte character is at least U+10000: never a blank *)
    intros H. exfalso.
    apply andb_true_iff in V as [V1 _]. apply N.leb_le in V1.
    unfold Text.is_space in H.
    repeat (apply orb_true_iff in H as [H|H]);
      try (apply andb_true_iff in H as [_ H]; apply N.leb_le in H; lia);
      try (apply N.eqb_eq in H; lia).
Qed.

(** [rstrip] drops a blank at the end, [lstrip] one at the front, and each
    keeps a text that has none there. *)
Lemma rstrip_drops_blank (s t : string) :
  Text.one_space t = true → Text.rstrip (s +:+ t) = Text.rstrip s.
Proof.
  intros H. induction s as [|c s IH]; simpl.
  - by apply rstrip_one_space.
  - by rewrite IH.
Qed.

Lemma lstrip_from_enough (n m : nat) (s : string) :
  (String.length s ≤ n)%nat → (String.length s ≤ m)%nat →
  Text.lstrip_from n s = Text.lstrip_from m s.
Proof.
  revert m s. induction n as [|n IH]; intros m s Hn Hm.
  - destruct s; [|simpl in Hn; lia]. by destruct m.
  - destruct m as [|m].
    + destruct s; [reflexivity|simpl in Hm; lia].
    + cbn [Text.lstrip_from].
      destruct (Text.decode1 s) as [[cp rest]|] eqn:D; [|reflexivity].
      destruct (Text.is_space cp); [|reflexivity].
      apply decode1_shorter in D. apply IH; lia.
Qed.

Lemma decode1_app (t s rest : string) (cp : N) :
  Text.decode1 t = Some (cp, rest) →
  Text.decode1 (t +:+ s) = Some (cp, rest +:+ s).
Proof.
  destruct t as [|b0 [|b1 [|b2 [|b3 t4]]]];
    change (String ?a ?x +:+ s) with (String a (x +:+ s));
    repeat change (String ?a ?x +:+ s) with (String a (x +:+ s));
    change ("" +:+ s) with s;
    unfold Text.decode1; cbv zeta;
    repeat match goal with
           | |- context [if ?b then _ else _] => destruct b
           end;
    intros H; try discriminate H; by injection H as <- <-.
Qed.

Lemma lstrip_drops_blank (t s : string) :
  Text.one_space t = true → Text.lstrip (t +:+ s) = Text.lstrip s.
Proof.
  unfold Text.one_space.
  destruct (Text.decode1 t) as [[cp [|x r]]|] eqn:D; try discriminate.
  intros Sp. unfold Text.lstrip.
  pose proof (decode1_app t s "" cp D) as Da.
  change ("" +:+ s) with s in Da.
  pose proof (decode1_shorter _ _ _ Da) as L.
  remember (String.length (t +:+ s)) as n eqn:E.
  destruct n as [|n]; [lia|].
  cbn [Text.lstrip_from]. rewrite Da, Sp.
  apply lstrip_from_enough; lia.
Qed.

Lemma lstrip_keeps (s : string) :
  match Text.decode1 s with
  | Some (cp, _) => Text.is_space cp = false
  | None => True
  end →
  Text.lstrip s = s.
Proof.
  unfold Text.lstrip. destruct (String.length s); [reflexivity|].
  cbn [Text.lstrip_from].
  destruct (Text.decode1 s) as [[cp rest]|]; [|reflexivity].
  by intros ->.
Qed.

Lemma rstrip_keeps (s : string) :
  (∀ u v, s = u +:+ v → Text.one_space v = false) →
  Text.rstrip s = s.
Proof.
  induction s as [|c s IH]; intros Q; [reflexivity|].
  cbn [Text.rstrip]. rewrite IH.
  - by rewrite (Q "" (String c s) eq_refl).
  - intros u v ->. by apply (Q (String c u) v).
Qed.

(** Blanks outside ASCII are stripped like the space: a no-break space
    before the answer, an em space alone, a no-break space after a text. *)
Example strip_unicode_blanks :
  let nbsp := String (ascii_of_nat 194) (String (ascii_of_nat 160) "") in
  let emsp := String (ascii_of_nat 226)
                (String (ascii_of_nat 128) (String (ascii_of_nat 131) "")) in
  Text.strip (nbsp +:+ "r") = "r"
  ∧ Text.strip emsp = ""
  ∧ Text.strip ("see you at 9" +:+ nbsp) = "see you at 9"
  ∧ Text.lower (Text.strip (nbsp +:+ "Q" +:+ nbsp)) = "q".
Proof. repeat split; reflexivity. Qed.

(** ** Membership and lookup *)

Lemma py_in_true (x : string) (l : list string) : py_in x l = true <-> x ∈ l.
Proof.
  unfold py_in. rewrite existsb_exists. split.
  - intros (y & Hy & E). apply String.eqb_eq in E. subst y.
    by apply list_elem_of_In.
  - intros H. exists x. split; [by apply list_elem_of_In|apply String.eqb_refl].
Qed.

Lemma py_in_false (x : string) (l : list string) : py_in x l = false <-> x ∉ l.
Proof.
  rewrite <- py_in_true. destruct (py_in x l); split; congruence.
Qed.

Lemma find_recipient_None (email_id : string) (l : list Email) :
  find_recipient email_id l = None <-> ∀ e, e ∈ l → e_id e ≠ email_id.
Proof.
  induction l as [|e l IH]; simpl.
  - split; [intros _ e H; inversion H|done].
  - destruct (String.eqb_spec (e_id e) email_id) as [E|E].
    + split; [done|]. intros H. destruct (H e); [left|done].
    + rewrite IH. split.
      * intros H e' [->|H']%elem_of_cons; auto.
      * intros H e' H'. apply H. by right.
Qed.

Lemma find_recipient_Some (email_id : string) (l : list Email) :
  (∃ e, e ∈ l ∧ e_id e = email_id) → is_Some (find_recipient email_id l).
Proof.
  intros (e & He & E).
  destruct (find_recipient email_id l) eqn:F; [by eexists|].
  rewrite find_recipient_None in F. by destruct (F e He).
Qed.

Lemma found_false (email_id : string) (l : list Email) :
  existsb (fun email => String.eqb (e_id email) email_id) l = false
  <-> ∀ e, e ∈ l → e_id e ≠ email_id.
Proof.
  induction l as [|e l IH]; simpl.
  - split; [intros _ e H; inversion H|done].
  - rewrite orb_false_iff, IH. split.
    + intros [E H] e' [->|H']%elem_of_cons; [by apply String.eqb_neq|auto].
    + intros H. split; [apply String.eqb_neq, H; left|].
      intros e' H'. apply H. by right.
Qed.

Lemma found_true (email_id : string) (l : list Email) :
  (∃ e, e ∈ l ∧ e_id e = email_id) →
  existsb (fun email => String.eqb (e_id email) email_id) l = true.
Proof.
  intros (e & He & E).
  destruct (existsb _ l) eqn:F; [done|].
  rewrite found_false in F. by destruct (F e He).
Qed.

(** The loop of [check_inbox] appends one line per email, so its result
    is the image of the inbox. *)
Lemma append_loop_fmap {A B : Type} (f : A → B) (l : list A) (acc : list B) :
  fold_left (fun lines x => lines ++ [f x]) l acc = acc ++ (f <$> l).
Proof.
  revert acc. induction l as [|x l IH]; intros acc; simpl.
  - by rewrite app_nil_r.
  - rewrite IH. by rewrite <- app_assoc.
Qed.

Lemma check_inbox_lines_fmap (runtime : ToolRuntime) :
  check_inbox_lines runtime
  = inbox_line (get_processed_ids (state runtime)) <$> inbox (state runtime).
Proof. unfold check_inbox_lines. by rewrite append_loop_fmap. Qed.

(** ** What a tool call leaves in place *)

Lemma apply_update_no_inbox (s : InboxState) (u : Command) :
  upd_inbox u = None → inbox (apply_update s u) = inbox s.
Proof. intros H. unfold apply_update. simpl. by rewrite H. Qed.

Lemma apply_update_no_processed (s : InboxState) (u : Command) :
  upd_processed_ids u = None →
  processed_ids (apply_update s u) = processed_ids s.
Proof. intros H. unfold apply_update. simpl. by rewrite H. Qed.

Lemma reply_keeps_inbox (email_id body : string) (runtime : ToolRuntime) :
  upd_inbox (reply_to_email email_id body runtime) = None.
Proof. unfold reply_to_email. by destruct (find_recipient _ _). Qed.

Lemma delete_keeps_inbox (email_id : string) (runtime : ToolRuntime) :
  upd_inbox (delete_email email_id runtime) = None.
Proof. unfold delete_email. by destruct (negb _). Qed.

Lemma exec_inbox (s : InboxState) (c : string * ToolCall) :
  inbox (exec s c) = inbox s.
Proof.
  destruct c as [tcid [ | id | id body | id]]; unfold exec; simpl;
    try reflexivity;
    apply apply_update_no_inbox; auto using reply_keeps_inbox, delete_keeps_inbox.
Qed.

Lemma exec_read_only (s : InboxState) (tcid : string) (call : ToolCall) :
  interrupt_on call = false →
  processed_ids (exec s (tcid, call)) = processed_ids s.
Proof. destruct call; simpl; intros H; try discriminate; reflexivity. Qed.

(** ** Marking an id processed *)

Lemma find_recipient_found (email_id : string) (s : InboxState) :
  found email_id s = bool_decide (is_Some (find_recipient email_id (inbox s))).
Proof.
  unfold found. induction (inbox s) as [|e l IH]; simpl.
  - reflexivity.
  - destruct (String.eqb (e_id e) email_id); simpl; [reflexivity|done].
Qed.

Lemma exec_delete (s : InboxState) (tcid email_id : string) :
  exec s (tcid, DeleteEmail email_id)
  = if found email_id s then
      {| messages :=
           messages s ++ [ToolMessage ("Email " +:+ email_id +:+ " deleted.") tcid];
         inbox := inbox s;
         processed_ids := Some (get_processed_ids s ++ [email_id]) |}
    else
      {| messages := messages s ++ [ToolMessage (not_found email_id) tcid];
         inbox := inbox s;
         processed_ids := processed_ids s |}.
Proof.
  unfold exec; simpl. unfold delete_email; simpl.
  by destruct (found email_id s).
Qed.

Lemma exec_reply (s : InboxState) (tcid email_id body : string) :
  exec s (tcid, ReplyToEmail email_id body)
  = match find_recipient email_id (inbox s) with
    | Some recipient =>
        {| messages :=
             messages s
             ++ [ToolMessage ("Reply sent to " +:+ recipient +:+ ": " +:+ body) tcid];
           inbox := inbox s;
           processed_ids := Some (get_processed_ids s ++ [email_id]) |}
    | None =>
        {| messages := messages s ++ [ToolMessage (not_found email_id) tcid];
           inbox := inbox s;
           processed_ids := processed_ids s |}
    end.
Proof.
  unfold exec; simpl. unfold reply_to_email; simpl.
  by destruct (find_recipient _ (inbox s)).
Qed.

Lemma ProcessedSet_delete (s : InboxState) (tcid email_id : string) :
  ProcessedSet (exec s (tcid, DeleteEmail email_id))
  = if found email_id s then ProcessedSet s ∪ {[email_id]} else ProcessedSet s.
Proof.
  rewrite exec_delete. destruct (found email_id s); [|done].
  unfold ProcessedSet, get_processed_ids; simpl.
  apply list_to_set_snoc_L.
Qed.

Lemma ProcessedSet_reply (s : InboxState) (tcid email_id body : string) :
  ProcessedSet (exec s (tcid, ReplyToEmail email_id body))
  = if found email_id s then ProcessedSet s ∪ {[email_id]} else ProcessedSet s.
Proof.
  rewrite exec_reply, find_recipient_found.
  destruct (find_recipient email_id (inbox s)) as [r|]; simpl; [|done].
  unfold ProcessedSet, get_processed_ids; simpl.
  apply list_to_set_snoc_L.
Qed.

Lemma found_exec (email_id : string) (s : InboxState) (c : string * ToolCall) :
  found email_id (exec s c) = found email_id s.
Proof. unfold found. by rewrite exec_inbox. Qed.

(** C2. Marking an id processed is idempotent on ProcessedSet: whichever of
    the two marking tools (reply, delete) runs first on an id, running
    either of them on that id again leaves ProcessedSet as the first call
    left it, for every id and every state. *)
Theorem mark_processed_idempotent
    (s : InboxState) (i b1 b2 t1 t2 : string) :
  let del1 := exec s (t1, DeleteEmail i) in
  let rep1 := exec s (t1, ReplyToEmail i b1) in
  ProcessedSet (exec del1 (t2, DeleteEmail i)) = ProcessedSet del1
  ∧ ProcessedSet (exec del1 (t2, ReplyToEmail i b2)) = ProcessedSet del1
  ∧ ProcessedSet (exec rep1 (t2, DeleteEmail i)) = ProcessedSet rep1
  ∧ ProcessedSet (exec rep1 (t2, ReplyToEmail i b2)) = ProcessedSet rep1.
Proof.
  intros del1 rep1. subst del1 rep1.
  repeat split;
    rewrite ?ProcessedSet_delete, ?ProcessedSet_reply, ?found_exec;
    rewrite ?ProcessedSet_delete, ?ProcessedSet_reply;
    (destruct (found i s); [|reflexivity]);
    by rewrite <- (assoc_L (∪)), (idemp_L (∪)).
Qed.

(** The list behind ProcessedSet is not a set: the second mark appends the
    id once more, which the final [Processed IDs] line shows. *)
Lemma second_mark_appends (s : InboxState) (i t1 t2 : string) :
  found i s = true →
  processed_ids (exec (exec s (t1, DeleteEmail i)) (t2, DeleteEmail i))
  = Some (get_processed_ids s ++ [i; i]).
Proof.
  intros F. rewrite exec_delete, found_exec, F. simpl.
  rewrite exec_delete, F. unfold get_processed_ids; simpl.
  by rewrite <- app_assoc.
Qed.

(** ** Unknown ids *)

(** C6. A reply or a delete whose target id matches no record of the inbox
    returns the not-found message as an ordinary tool result, with no
    [inbox] and no [processed_ids] key in its update; once the result is
    applied, the inbox and the processed ids are what they were. *)
Theorem unknown_id_not_found
    (s : InboxState) (tcid email_id body : string) :
  (∀ e, e ∈ inbox s → e_id e ≠ email_id) →
  let runtime := {| state := s; tool_call_id := tcid |} in
  let result :=
    {| upd_inbox := None; upd_processed_ids := None;
       upd_messages := [ToolMessage (not_found email_id) tcid] |} in
  reply_to_email email_id body runtime = result
  ∧ delete_email email_id runtime = result
  ∧ inbox (exec s (tcid, ReplyToEmail email_id body)) = inbox s
  ∧ processed_ids (exec s (tcid, ReplyToEmail email_id body)) = processed_ids s
  ∧ inbox (exec s (tcid, DeleteEmail email_id)) = inbox s
  ∧ processed_ids (exec s (tcid, DeleteEmail email_id)) = processed_ids s.
Proof.
  intros H runtime result.
  assert (R : reply_to_email email_id body runtime = result).
  { unfold reply_to_email; simpl.
    by rewrite (proj2 (find_recipient_None email_id (inbox s)) H). }
  assert (D : delete_email email_id runtime = result).
  { unfold delete_email, found; simpl.
    by rewrite (proj2 (found_false email_id (inbox s)) H). }
  repeat split; try done; unfold exec; simpl; fold runtime;
    rewrite ?R, ?D; reflexivity.
Qed.

Lemma unknown_id_not_found_witness :
  let s := INITIAL_STATE in
  reply_to_email "9" "hello" {| state := s; tool_call_id := "call-1" |}
  = {| upd_inbox := None; upd_processed_ids := None;
       upd_messages := [ToolMessage "Email with ID 9 not found." "call-1"] |}.
Proof.
  intros s.
  refine (proj1 (unknown_id_not_found s "call-1" "9" "hello" _)).
  intros e H. vm_compute in H.
  repeat (apply elem_of_cons in H as [->|H]; [discriminate|]).
  inversion H.
Defined.

(** ** The inbox is never written *)

(** C10. No tool writes the [inbox] key: the updates of [reply_to_email]
    and [delete_email] carry only [processed_ids] and [messages], so after
    any sequence of tool calls the inbox is the list it was, the same
    records in the same order. *)
Theorem inbox_constant :
  (∀ email_id body runtime,
      upd_inbox (reply_to_email email_id body runtime) = None)
  ∧ (∀ email_id runtime, upd_inbox (delete_email email_id runtime) = None)
  ∧ (∀ calls s, inbox (exec_all calls s) = inbox s).
Proof.
  split; [apply reply_keeps_inbox|]. split; [apply delete_keeps_inbox|].
  intros calls. unfold exec_all.
  induction calls as [|c calls IH]; intros s; simpl; [done|].
  by rewrite IH, exec_inbox.
Qed.

(** ** Listing the inbox *)

Lemma status_of_spec (s : InboxState) (email : Email) :
  (e_id email ∉ ProcessedSet s →
     status_of (get_processed_ids s) email = "[NEW]")
  ∧ (e_id email ∈ ProcessedSet s →
     status_of (get_processed_ids s) email = "[DONE]").
Proof.
  unfold status_of, ProcessedSet. rewrite elem_of_list_to_set.
  destruct (py_in (e_id email) (get_processed_ids s)) eqn:E.
  - apply py_in_true in E. split; [by intros []|done].
  - apply py_in_false in E. split; [done|by intros ?].
Qed.

(** C9. [check_inbox] returns one line per record of the inbox, in inbox
    order, joined by line feeds; the line of a record carries the status
    [NEW] when its id is not in ProcessedSet and [DONE] otherwise.  The
    tool returns a string only: applying its result adds that string as a
    tool message and leaves the inbox and the processed ids as they were. *)
Theorem check_inbox_spec (s : InboxState) (tcid : string) :
  let runtime := {| state := s; tool_call_id := tcid |} in
  check_inbox runtime = Text.join Text.nl (check_inbox_lines runtime)
  ∧ length (check_inbox_lines runtime) = length (inbox s)
  ∧ (∀ (i : nat) (email : Email),
        inbox s !! i = Some email →
        ∃ status,
          check_inbox_lines runtime !! i
          = Some (status +:+ " ID:" +:+ e_id email +:+ " From:" +:+ e_from email
                  +:+ " Subject:" +:+ e_subject email)
          ∧ (e_id email ∉ ProcessedSet s → status = "[NEW]")
          ∧ (e_id email ∈ ProcessedSet s → status = "[DONE]"))
  ∧ exec s (tcid, CheckInbox)
    = {| messages := messages s ++ [ToolMessage (check_inbox runtime) tcid];
         inbox := inbox s;
         processed_ids := processed_ids s |}.
Proof.
  intros runtime. split; [reflexivity|].
  rewrite check_inbox_lines_fmap. simpl.
  split; [apply length_fmap|]. split; [|reflexivity].
  intros i email H.
  exists (status_of (get_processed_ids s) email). split.
  - rewrite list_lookup_fmap, H. reflexivity.
  - apply status_of_spec.
Qed.

(** ** The remaining-work count and the prompt *)

Lemma remaining_depends_on_set (s1 s2 : InboxState) :
  inbox s1 = inbox s2 → ProcessedSet s1 = ProcessedSet s2 →
  remaining s1 = remaining s2.
Proof.
  intros Hi Hp. unfold remaining. rewrite Hi. f_equal.
  apply filter_ext. intros e. f_equal.
  destruct (py_in (e_id e) (get_processed_ids s2)) eqn:E2.
  - apply py_in_true. apply py_in_true in E2.
    apply (elem_of_list_to_set (C:=gset string)).
    fold (ProcessedSet s1). rewrite Hp. by apply elem_of_list_to_set.
  - apply py_in_false. apply py_in_false in E2. intros H. apply E2.
    apply (elem_of_list_to_set (C:=gset string)).
    fold (ProcessedSet s2). rewrite <- Hp. by apply elem_of_list_to_set.
Qed.

(** The records counted as done, for a store without duplicate ids, are as
    many as the ids ProcessedSet shares with the store. *)
Lemma processed_in_store_size (P : gset string) (l : list Email) :
  NoDup (e_id <$> l) →
  length (List.filter (fun e => bool_decide (e_id e ∈ P)) l)
  = size (P ∩ list_to_set (e_id <$> l)).
Proof.
  induction l as [|e l IH]; simpl; intros ND.
  - by rewrite intersection_empty_r_L, size_empty.
  - apply NoDup_cons in ND as [Hnotin ND]. specialize (IH ND).
    change (list_fmap Email string e_id l) with (e_id <$> l) in *.
    set (ids := list_to_set (C:=gset string) (e_id <$> l)) in *.
    assert (Hfresh : e_id e ∉ P ∩ ids).
    { unfold ids. rewrite elem_of_intersection, elem_of_list_to_set. tauto. }
    case_bool_decide as HP; simpl.
    + assert (E : P ∩ ({[e_id e]} ∪ ids) = {[e_id e]} ∪ (P ∩ ids)).
      { apply set_eq. intros x.
        rewrite !elem_of_union, !elem_of_intersection, !elem_of_union,
          !elem_of_singleton.
        split; [tauto|]. intros [->|[? ?]]; auto. }
      rewrite E, size_union, size_singleton, IH; [done|].
      apply disjoint_singleton_l, Hfresh.
    + rewrite IH. f_equal. apply set_eq. intros x.
      rewrite !elem_of_intersection, !elem_of_union, !elem_of_singleton.
      split; [tauto|]. intros [Hx [->|?]]; [done|tauto].
Qed.

Lemma filter_split_length {A : Type} (f : A → bool) (l : list A) :
  length (List.filter (fun x => negb (f x)) l) + length (List.filter f l)
  = length l.
Proof.
  induction l as [|x l IH]; simpl; [done|].
  destruct (f x); simpl; lia.
Qed.

Lemma remaining_plus_processed (s : InboxState) :
  NoDup (store_ids s) →
  remaining s + size (ProcessedSet s ∩ list_to_set (store_ids s))
  = length (inbox s).
Proof.
  intros ND. unfold store_ids in *.
  rewrite <- processed_in_store_size by done.
  rewrite <- (filter_split_length
                (fun e => py_in (e_id e) (get_processed_ids s)) (inbox s)).
  unfold remaining. f_equal. f_equal. apply filter_ext. intros e.
  unfold ProcessedSet.
  destruct (py_in (e_id e) (get_processed_ids s)) eqn:E.
  - apply py_in_true in E. apply bool_decide_eq_true_2.
    by apply elem_of_list_to_set.
  - apply py_in_false in E. apply bool_decide_eq_false_2.
    by rewrite elem_of_list_to_set.
Qed.

Lemma inbox_prompt_done (request : ModelRequest) :
  inbox_prompt request = ALL_PROCESSED_PROMPT
  <-> remaining (request_state request) = 0.
Proof.
  unfold inbox_prompt.
  destruct (Nat.eqb_spec (remaining (request_state request)) 0) as [E|E].
  - by rewrite E.
  - split; [|done]. intros H. exfalso.
    unfold ALL_PROCESSED_PROMPT in H. simpl in H. discriminate H.
Qed.

(** C8. For a store whose ids are unique, the count the prompt is built
    from equals |Store| - |ProcessedSet ∩ Store.ids|; it is a function of
    the inbox and of ProcessedSet alone, with no effect on the state; and
    the prompt is the all-processed one exactly when the count is 0. *)
Theorem remaining_count_spec (request : ModelRequest) :
  let s := request_state request in
  NoDup (store_ids s) →
  Z.of_nat (remaining s)
  = (Z.of_nat (length (inbox s))
     - Z.of_nat (size (ProcessedSet s ∩ list_to_set (store_ids s))))%Z
  ∧ (∀ s', inbox s' = inbox s → ProcessedSet s' = ProcessedSet s →
           remaining s' = remaining s
           ∧ inbox_prompt {| request_state := s' |} = inbox_prompt request)
  ∧ (inbox_prompt request = ALL_PROCESSED_PROMPT <-> remaining s = 0).
Proof.
  intros s ND. split; [|split].
  - pose proof (remaining_plus_processed s ND). lia.
  - intros s' Hi Hp.
    pose proof (remaining_depends_on_set s' s Hi Hp) as R.
    split; [done|]. unfold inbox_prompt; simpl. fold s. by rewrite R.
  - apply inbox_prompt_done.
Qed.

Lemma remaining_count_spec_witness :
  let s := {| messages := []; inbox := SAMPLE_INBOX;
              processed_ids := Some ["3"; "1"; "3"; "7"] |} in
  Z.of_nat (remaining s)
  = (Z.of_nat (length (inbox s))
     - Z.of_nat (size (ProcessedSet s ∩ list_to_set (store_ids s))))%Z.
Proof.
  intros s.
  refine (proj1 (remaining_count_spec {| request_state := s |} _)).
  simpl. unfold store_ids. simpl.
  repeat (apply NoDup_cons; split;
          [intros H; repeat (apply elem_of_cons in H as [H|H];
                             [discriminate H|]); inversion H|]).
  apply NoDup_nil_2.
Defined.

(** Without unique ids the equation fails: two records share the id 1,
    which is processed; nothing remains, yet |Store| - |ProcessedSet ∩
    Store.ids| is 1. *)
Example remaining_duplicate_ids :
  let e := {| e_id := "1"; e_from := "a@example.com"; e_subject := "";
              e_body := "" |} in
  let s := {| messages := []; inbox := [e; e]; processed_ids := Some ["1"] |} in
  remaining s = 0
  ∧ length (inbox s) - size (ProcessedSet s ∩ list_to_set (store_ids s)) = 1.
Proof. split; reflexivity. Qed.

(** ** Deleting *)

Lemma listed_iff (email_id : string) (s : InboxState) :
  listed email_id s <-> ∃ e, e ∈ inbox s ∧ e_id e = email_id.
Proof.
  unfold listed. rewrite check_inbox_lines_fmap. simpl. split.
  - intros (i & e & Hi & E & _). exists e. split; [|done].
    apply list_elem_of_lookup. by exists i.
  - intros (e & [i Hi]%list_elem_of_lookup & E). exists i, e.
    repeat split; try done. by rewrite list_lookup_fmap, Hi.
Qed.

(** C1, as the claim states it, fails: after the approved delete of
    record 3 of the sample inbox the record is still listed (the listing
    still has five rows), although its id is in ProcessedSet. *)
Lemma approved_delete_still_listed :
  let s := INITIAL_STATE in
  let s' := exec s ("call-1", DeleteEmail "3") in
  ¬ (¬ listed "3" s' ∧ "3" ∈ ProcessedSet s')
  ∧ length (check_inbox_lines {| state := s'; tool_call_id := "call-2" |}) = 5
  ∧ check_inbox_lines {| state := s'; tool_call_id := "call-2" |} !! 2
    = Some "[DONE] ID:3 From:deals@spammy-cruises.biz Subject:YOU WON A FREE CRUISE!!!".
Proof.
  intros s s'. split; [|split; reflexivity].
  intros [H _]. apply H. apply listed_iff.
  exists {| e_id := "3"; e_from := "deals@spammy-cruises.biz";
            e_subject := "YOU WON A FREE CRUISE!!!";
            e_body := "Congratulations! You have been selected for a FREE luxury cruise. Click here to claim your prize now!!!" |}.
  split; [|reflexivity].
  subst s'. rewrite exec_inbox. simpl. unfold SAMPLE_INBOX.
  do 2 apply list_elem_of_further. apply list_elem_of_here.
Qed.

(** C1, amended. An approved delete of an id the inbox holds adds the id to
    ProcessedSet and leaves the inbox as it was: every record with that id
    keeps its row in the listing, at its place, with the status [DONE]. *)
Theorem approved_delete_marks_done (s : InboxState) (tcid email_id : string) :
  (∃ e, e ∈ inbox s ∧ e_id e = email_id) →
  let s' := exec s (tcid, DeleteEmail email_id) in
  email_id ∈ ProcessedSet s'
  ∧ inbox s' = inbox s
  ∧ listed email_id s'
  ∧ (∀ tcid' (i : nat) (email : Email),
        inbox s !! i = Some email → e_id email = email_id →
        check_inbox_lines {| state := s'; tool_call_id := tcid' |} !! i
        = Some ("[DONE]" +:+ " ID:" +:+ e_id email +:+ " From:" +:+ e_from email
                +:+ " Subject:" +:+ e_subject email)).
Proof.
  intros Hex s'.
  assert (F : found email_id s = true) by (by apply found_true).
  assert (HP : email_id ∈ ProcessedSet s').
  { subst s'. rewrite ProcessedSet_delete, F.
    by apply elem_of_union_r, elem_of_singleton. }
  assert (HI : inbox s' = inbox s) by apply exec_inbox.
  split; [done|]. split; [done|]. split.
  - apply listed_iff. by rewrite HI.
  - intros tcid' i email Hi E.
    rewrite check_inbox_lines_fmap. cbn [state].
    rewrite list_lookup_fmap, HI, Hi. cbn [fmap option_fmap option_map].
    unfold inbox_line. subst email_id.
    by rewrite (proj2 (status_of_spec s' email) HP).
Qed.

Lemma approved_delete_marks_done_witness :
  let s := INITIAL_STATE in
  "3" ∈ ProcessedSet (exec s ("call-1", DeleteEmail "3")).
Proof.
  intros s.
  refine (proj1 (approved_delete_marks_done s "call-1" "3" _)).
  exists {| e_id := "3"; e_from := "deals@spammy-cruises.biz";
            e_subject := "YOU WON A FREE CRUISE!!!";
            e_body := "Congratulations! You have been selected for a FREE luxury cruise. Click here to claim your prize now!!!" |}.
  split; [|reflexivity]. simpl. unfold SAMPLE_INBOX.
  do 2 apply list_elem_of_further. apply list_elem_of_here.
Defined.

(** ** The decision prompt *)

Lemma bind_returned {A B : Type} (m : IO A) (f : A → IO B)
    (c c' : Console) (a : A) :
  m c = Returned a c' → (m ≫= f) c = f a c'.
Proof. intros H. unfold mbind, IO_bind. by rewrite H. Qed.

Lemma bind_raised {A B : Type} (m : IO A) (f : A → IO B)
    (c : Console) (e : Exn) :
  m c = Raised e → (m ≫= f) c = Raised e.
Proof. intros H. unfold mbind, IO_bind. by rewrite H. Qed.

Lemma print_args_out (tool_args : dict) (c : Console) :
  print_args tool_args c
  = Returned tt {| stdin := stdin c;
                   stdout := stdout c ++ (arg_line <$> tool_args) |}.
Proof.
  revert c. induction tool_args as [|[key value] rest IH]; intros c; simpl.
  - unfold mret, IO_ret. rewrite app_nil_r. by destruct c.
  - erewrite bind_returned by reflexivity. rewrite IH. simpl.
    by rewrite <- app_assoc.
Qed.

(** One step of a console computation whose first action returns. *)
Ltac io_step :=
  erewrite bind_returned by (reflexivity || apply print_args_out).

(** Up to the answer: the banner and the prompt are written, one line is
    read, and the branch is chosen on the stripped, lower-cased line. *)
Lemma prompt_decision_branch (action : ActionRequest) (line : string)
    (rest : list string) (out : list ConsoleOut) :
  let c := {| stdin := rest;
              stdout := out ++ banner action ++ [Prompt DECISION_PROMPT] |} in
  prompt_decision action {| stdin := line :: rest; stdout := out |}
  = if String.eqb (choice_of line) "a" then Returned Approve c
    else if String.eqb (choice_of line) "r" then
      (reason_line ← input "  Reason for rejection: ";
       mret (Reject (Text.strip reason_line))) c
    else if String.eqb (choice_of line) "e" then
      (print (PrintCurrentArgs (args action)) ;;
       edited_args ← edit_loop (dict_keys (args action)) (args action);
       mret (Edit (name action) edited_args)) c
    else
      Returned Approve
        {| stdin := rest;
           stdout := out ++ banner action
                     ++ [Prompt DECISION_PROMPT; PrintLine UNRECOGNIZED] |}.
Proof.
  intros c. unfold prompt_decision, choice_of.
  do 6 io_step. cbn [stdin stdout].
  assert (E : (((((out ++ [PrintLine (Text.nl +:+ rule)])
                   ++ [PrintLine ("  PROPOSED ACTION: " +:+ name action)])
                  ++ [PrintLine rule]) ++ (arg_line <$> args action))
                ++ [PrintLine rule]) ++ [Prompt DECISION_PROMPT]
               = stdout c).
  { unfold c, banner. cbn [stdout]. by rewrite <- !app_assoc. }
  rewrite E. clear E.
  replace {| stdin := rest; stdout := stdout c |} with c by reflexivity.
  destruct (String.eqb _ "a"); [reflexivity|].
  destruct (String.eqb _ "r"); [reflexivity|].
  destruct (String.eqb _ "e"); [reflexivity|].
  io_step. unfold mret, IO_ret, c. cbn [stdin stdout]. by rewrite <- !app_assoc.
Qed.

(** A batch of one request: the round hands over the decision the prompt
    returned for it, and the approval step resolves the request with it. *)
Lemma hitl_round_single (action : ActionRequest) (decision : option Decision)
    (c c' : Console) (d : Decision) :
  prompt_decision action c = Returned d c' →
  hitl_round {| action_requests := Some [action] |} decision c
  = Returned ([d], Some d) c'.
Proof.
  intros H. unfold hitl_round. cbn [action_requests default from_option].
  assert (F : for_action_requests [action] decision c = Returned (Some d) c').
  { cbn [for_action_requests]. by erewrite bind_returned by exact H. }
  by erewrite bind_returned by exact F.
Qed.

Lemma approval_step_run (s : InboxState) (tcid : string)
    (action : ActionRequest) (decision : option Decision)
    (c c' : Console) (d : Decision) :
  prompt_decision action c = Returned d c' →
  approval_step s tcid action decision c
  = Returned (resolve s tcid action d) c'.
Proof.
  intros H. unfold approval_step.
  erewrite bind_returned by (by apply hitl_round_single). reflexivity.
Qed.

(** C4, as the claim states it, fails: with the single unrecognised line
    [x] the proposed delete is approved; the script asks once, reads that
    one line and does not ask again. *)
Lemma unrecognized_choice_is_approved :
  let action := {| name := "delete_email"; args := [("email_id", "3")] |} in
  prompt_decision action {| stdin := ["x"]; stdout := [] |}
  = Returned Approve
      {| stdin := [];
         stdout := [PrintLine (Text.nl +:+ rule);
                    PrintLine "  PROPOSED ACTION: delete_email";
                    PrintLine rule;
                    PrintLine "  email_id: 3";
                    PrintLine rule;
                    Prompt DECISION_PROMPT;
                    PrintLine UNRECOGNIZED] |}.
Proof. reflexivity. Qed.

(** C4, amended. An answer that is none of [a], [r], [e] (after stripping
    and lower-casing) is not asked for again: the script prints the notice
    that it approves by default and resolves the request as approve,
    having read that one line only; the round then resumes the agent with
    that approve decision. *)
Theorem unrecognized_choice_approves (action : ActionRequest)
    (line : string) (rest : list string) (out : list ConsoleOut) :
  choice_of line ≠ "a" → choice_of line ≠ "r" → choice_of line ≠ "e" →
  prompt_decision action {| stdin := line :: rest; stdout := out |}
  = Returned Approve
      {| stdin := rest;
         stdout := out ++ banner action
                   ++ [Prompt DECISION_PROMPT; PrintLine UNRECOGNIZED] |}
  ∧ (∀ decision,
       hitl_round {| action_requests := Some [action] |} decision
                  {| stdin := line :: rest; stdout := out |}
       = Returned ([Approve], Some Approve)
           {| stdin := rest;
              stdout := out ++ banner action
                        ++ [Prompt DECISION_PROMPT; PrintLine UNRECOGNIZED] |}).
Proof.
  intros Ha Hr He.
  assert (P : prompt_decision action {| stdin := line :: rest; stdout := out |}
              = Returned Approve
                  {| stdin := rest;
                     stdout := out ++ banner action
                               ++ [Prompt DECISION_PROMPT;
                                   PrintLine UNRECOGNIZED] |}).
  { rewrite prompt_decision_branch.
    apply String.eqb_neq in Ha, Hr, He. by rewrite Ha, Hr, He. }
  split; [exact P|]. intros decision. by apply hitl_round_single.
Qed.

Lemma unrecognized_choice_approves_witness :
  prompt_decision {| name := "delete_email"; args := [("email_id", "3")] |}
                  {| stdin := [" Yes "; "r"]; stdout := [] |}
  = Returned Approve
      {| stdin := ["r"];
         stdout := banner {| name := "delete_email"; args := [("email_id", "3")] |}
                   ++ [Prompt DECISION_PROMPT; PrintLine UNRECOGNIZED] |}.
Proof.
  refine (proj1 (unrecognized_choice_approves
                   {| name := "delete_email"; args := [("email_id", "3")] |}
                   " Yes " ["r"] [] _ _ _));
    vm_compute; discriminate.
Defined.

(** ** Rejecting *)

(** C7. A rejection changes nothing: the reject branch of the prompt reads
    the reason and builds the decision from it without touching any state,
    the round resumes the agent with that one rejection, and resolving the
    request with a rejection returns the state it was given, whatever the
    reason, which is only handed upstream.  So the approval step as a
    whole, from the operator's answer to the resolved request, leaves the
    state as it found it. *)
Theorem reject_changes_nothing (s : InboxState) (tcid : string)
    (action : ActionRequest) (line reason_line : string)
    (rest : list string) (out : list ConsoleOut) :
  choice_of line = "r" →
  prompt_decision action
    {| stdin := line :: reason_line :: rest; stdout := out |}
  = Returned (Reject (Text.strip reason_line))
      {| stdin := rest;
         stdout := out ++ banner action
                   ++ [Prompt DECISION_PROMPT;
                       Prompt "  Reason for rejection: "] |}
  ∧ (∀ reason,
       let after := fst (resolve s tcid action (Reject reason)) in
       after = s
       ∧ inbox after = inbox s
       ∧ ProcessedSet after = ProcessedSet s
       ∧ snd (resolve s tcid action (Reject reason)) = Some reason)
  ∧ (∀ decision,
       hitl_round {| action_requests := Some [action] |} decision
                  {| stdin := line :: reason_line :: rest; stdout := out |}
       = Returned ([Reject (Text.strip reason_line)],
                   Some (Reject (Text.strip reason_line)))
           {| stdin := rest;
              stdout := out ++ banner action
                        ++ [Prompt DECISION_PROMPT;
                            Prompt "  Reason for rejection: "] |})
  ∧ (∀ decision,
       approval_step s tcid action decision
                     {| stdin := line :: reason_line :: rest; stdout := out |}
       = Returned (s, Some (Text.strip reason_line))
           {| stdin := rest;
              stdout := out ++ banner action
                        ++ [Prompt DECISION_PROMPT;
                            Prompt "  Reason for rejection: "] |}).
Proof.
  intros Hr.
  assert (P : prompt_decision action
                {| stdin := line :: reason_line :: rest; stdout := out |}
              = Returned (Reject (Text.strip reason_line))
                  {| stdin := rest;
                     stdout := out ++ banner action
                               ++ [Prompt DECISION_PROMPT;
                                   Prompt "  Reason for rejection: "] |}).
  { rewrite prompt_decision_branch, Hr.
    change (String.eqb "r" "a") with false.
    change (String.eqb "r" "r") with true. cbv iota. io_step.
    unfold mret, IO_ret. cbn [stdin stdout]. by rewrite <- !app_assoc. }
  split; [exact P|].
  split; [intros reason; cbn; repeat split; reflexivity|].
  split; intros decision.
  - by apply hitl_round_single.
  - by rewrite (approval_step_run s tcid action decision _ _ _ P).
Qed.

Lemma reject_changes_nothing_witness :
  let action := {| name := "reply_to_email";
                   args := [("email_id", "2"); ("body", "Thanks, will review")] |} in
  approval_step INITIAL_STATE "call-1" action None
                {| stdin := ["R"; " not ready "]; stdout := [] |}
  = Returned (INITIAL_STATE, Some "not ready")
      {| stdin := [];
         stdout := [] ++ banner action
                   ++ [Prompt DECISION_PROMPT;
                       Prompt "  Reason for rejection: "] |}.
Proof.
  intros action.
  refine (proj2 (proj2 (proj2 (reject_changes_nothing INITIAL_STATE "call-1"
                                 action "R" " not ready " [] [] _))) None).
  reflexivity.
Defined.

(** ** One decision per request *)

Lemma last_cons {A : Type} (l : list A) (a b : A) :
  List.last (b :: l) a = List.last l b.
Proof.
  revert a b. induction l as [|x l IH]; intros a b; [reflexivity|].
  change (List.last (b :: x :: l) a) with (List.last (x :: l) a).
  by rewrite (IH a x), (IH b x).
Qed.

(** The [for] loop keeps only what its last pass assigned. *)
Lemma for_action_requests_last (action_requests : list ActionRequest)
    (decision : option Decision) (c c' : Console) (r : option Decision) :
  for_action_requests action_requests decision c = Returned r c' →
  match action_requests with
  | [] => r = decision
  | a :: l =>
      ∃ c0 d, prompt_decision (List.last l a) c0 = Returned d c'
              ∧ r = Some d
  end.
Proof.
  revert decision c.
  induction action_requests as [|a l IH]; intros decision c; simpl.
  - unfold mret, IO_ret. intros [= <- _]. reflexivity.
  - unfold mbind, IO_bind.
    destruct (prompt_decision a c) as [d c1|e] eqn:E; [|discriminate].
    intros H. specialize (IH _ _ H). destruct l as [|b l].
    + subst r. simpl in H. unfold mret, IO_ret in H.
      injection H as <-. by exists c, d.
    + by rewrite <- (last_cons l a b) in IH.
Qed.

(** Whatever the size of the batch, a round that resumes the agent hands
    it exactly one decision. *)
Lemma hitl_round_one_decision (interrupt : Interrupt)
    (decision : option Decision) (c c' : Console)
    (decisions : list Decision) (decision' : option Decision) :
  hitl_round interrupt decision c = Returned (decisions, decision') c' →
  length decisions = 1.
Proof.
  unfold hitl_round, mbind, IO_bind.
  destruct (for_action_requests _ decision c) as [[d|] c1|e]; try discriminate.
  unfold mret, IO_ret. by intros [= <- _ _].
Qed.

(** C5: a batch of two pending requests.  The operator rejects the reply
    and approves the delete; both answers are read, but the round resumes
    the agent with one decision, the last, for the two requests. *)
Theorem batch_of_two_submits_one :
  let reply := {| name := "reply_to_email";
                  args := [("email_id", "2"); ("body", "Thanks, will review")] |} in
  let delete := {| name := "delete_email"; args := [("email_id", "3")] |} in
  let interrupt := {| action_requests := Some [reply; delete] |} in
  ∃ c',
    hitl_round interrupt None
      {| stdin := ["r"; "not ready"; "a"]; stdout := [] |}
    = Returned ([Approve], Some Approve) c'
    ∧ stdin c' = []
    ∧ prompt_decision reply {| stdin := ["r"; "not ready"; "a"]; stdout := [] |}
      = Returned (Reject "not ready")
          {| stdin := ["a"];
             stdout := banner reply
                       ++ [Prompt DECISION_PROMPT;
                           Prompt "  Reason for rejection: "] |}.
Proof. eexists. repeat split; reflexivity. Qed.

(** A response without interrupt ends the loop at once, with nothing read
    or written. *)
Lemma hitl_loop_no_interrupt {Agent : Type}
    (resume : Agent → list Decision → Agent * Response) (fuel : nat)
    (agent : Agent) (response : Response) (decision : option Decision)
    (c : Console) :
  interrupts response = [] →
  hitl_loop resume fuel agent response decision c
  = Returned (Some (agent, response)) c.
Proof. intros H. destruct fuel; simpl; by rewrite H. Qed.

(** An empty batch on the first round leaves [decision] unbound. *)
Example empty_batch_raises :
  hitl_round {| action_requests := Some [] |} None
             {| stdin := []; stdout := [] |}
  = Raised NameError.
Proof. reflexivity. Qed.

(** ** Editing *)

Lemma dict_set_at (key value value' : string) (pre suf : dict) :
  key ∉ dict_keys pre →
  dict_set key value' (pre ++ (key, value) :: suf)
  = pre ++ (key, value') :: suf.
Proof.
  induction pre as [|[k v] pre IH]; simpl; intros H.
  - by rewrite String.eqb_refl.
  - apply not_elem_of_cons in H as [Hne H].
    rewrite (proj2 (String.eqb_neq k key)) by congruence.
    by rewrite IH.
Qed.

Lemma edit_loop_run (suf pre : dict) (lines rest : list string)
    (out : list ConsoleOut) :
  NoDup (dict_keys (pre ++ suf)) → length lines = length suf →
  edit_loop (dict_keys suf) (pre ++ suf)
            {| stdin := lines ++ rest; stdout := out |}
  = Returned (pre ++ apply_edits suf lines)
      {| stdin := rest; stdout := out ++ (edit_prompt <$> dict_keys suf) |}.
Proof.
  revert pre lines out.
  induction suf as [|[key value] suf IH]; intros pre lines out ND Hlen.
  - destruct lines; [|discriminate]. simpl.
    unfold mret, IO_ret. by rewrite !app_nil_r.
  - destruct lines as [|line lines]; [discriminate|].
    injection Hlen as Hlen. cbn [dict_keys fmap list_fmap fst edit_loop].
    erewrite bind_returned by reflexivity.
    assert (Hfresh : key ∉ dict_keys pre).
    { unfold dict_keys in ND. rewrite fmap_app in ND.
      apply NoDup_app in ND as (_ & Hd & _). intros Hin.
      apply (Hd key Hin). simpl. left. }
    assert (E : (if Text.truthy (Text.strip line)
                 then dict_set key (Text.strip line) (pre ++ (key, value) :: suf)
                 else pre ++ (key, value) :: suf)
                = (pre ++ [(key, edited_value value line)]) ++ suf).
    { unfold edited_value. rewrite <- app_assoc. simpl.
      destruct (Text.truthy (Text.strip line)); [|done].
      by apply dict_set_at. }
    rewrite E.
    change (list_fmap (string * string)%type string fst suf) with (dict_keys suf).
    rewrite IH; [| |done].
    + cbn [apply_edits zip_with fst snd]. rewrite <- !app_assoc. simpl.
      reflexivity.
    + unfold dict_keys in *. rewrite <- app_assoc. simpl.
      rewrite !fmap_app in *. simpl in *. done.
Qed.

(** C3, as the claim states it, fails: in the edit branch the operator is
    asked for every argument of the proposed call, the target id first,
    and the line given for [email_id] replaces it; the edited call then
    marks record 2 where record 1 was proposed. *)
Lemma edit_changes_target_id :
  let action := {| name := "reply_to_email";
                   args := [("email_id", "1"); ("body", "draft")] |} in
  let s := INITIAL_STATE in
  prompt_decision action {| stdin := ["e"; "2"; ""]; stdout := [] |}
  = Returned (Edit "reply_to_email" [("email_id", "2"); ("body", "draft")])
      {| stdin := [];
         stdout := banner action
                   ++ [Prompt DECISION_PROMPT; PrintCurrentArgs (args action);
                       edit_prompt "email_id"; edit_prompt "body"] |}
  ∧ dict_get "email_id" (args action) = Some "1"
  ∧ tool_call_of {| name := "reply_to_email";
                    args := [("email_id", "2"); ("body", "draft")] |}
    = Some (ReplyToEmail "2" "draft")
  ∧ processed_ids (exec s ("call-1", ReplyToEmail "2" "draft")) = Some ["2"].
Proof. repeat split; vm_compute; reflexivity. Qed.

(** C3, amended. An edit decision keeps the tool name and carries the
    proposed arguments with the operator's overrides, argument by argument
    in the order of the proposal: a line that is not blank replaces the
    value with the line stripped of surrounding blanks, a blank line keeps
    the original.  This holds for every argument, the target id included;
    for a reply the body of the edited call is the edited value.  The round
    resumes the agent with this one edit decision, the edited action in
    it. *)
Theorem edit_substitutes_arguments (action : ActionRequest)
    (line : string) (lines rest : list string) (out : list ConsoleOut) :
  choice_of line = "e" →
  NoDup (dict_keys (args action)) →
  length lines = length (args action) →
  let edited_args := apply_edits (args action) lines in
  prompt_decision action {| stdin := line :: lines ++ rest; stdout := out |}
  = Returned (Edit (name action) edited_args)
      {| stdin := rest;
         stdout := out ++ banner action
                   ++ [Prompt DECISION_PROMPT; PrintCurrentArgs (args action)]
                   ++ (edit_prompt <$> dict_keys (args action)) |}
  ∧ dict_keys edited_args = dict_keys (args action)
  ∧ (∀ (i : nat) key value new_line,
        args action !! i = Some (key, value) → lines !! i = Some new_line →
        edited_args !! i
        = Some (key, if Text.truthy (Text.strip new_line)
                     then Text.strip new_line else value))
  ∧ (∀ email_id body id_line body_line tcid runtime,
        args action = [("email_id", email_id); ("body", body)] →
        lines = [id_line; body_line] → Text.strip id_line = "" →
        Text.strip body_line ≠ "" →
        tool_call_of {| name := "reply_to_email"; args := edited_args |}
        = Some (ReplyToEmail email_id (Text.strip body_line))
        ∧ (∀ recipient,
             find_recipient email_id (inbox (state runtime)) = Some recipient →
             tool_call_id runtime = tcid →
             upd_messages (reply_to_email email_id (Text.strip body_line) runtime)
             = [ToolMessage ("Reply sent to " +:+ recipient +:+ ": "
                             +:+ Text.strip body_line) tcid]))
  ∧ (∀ decision,
        hitl_round {| action_requests := Some [action] |} decision
                   {| stdin := line :: lines ++ rest; stdout := out |}
        = Returned ([Edit (name action) edited_args],
                    Some (Edit (name action) edited_args))
            {| stdin := rest;
               stdout := out ++ banner action
                         ++ [Prompt DECISION_PROMPT;
                             PrintCurrentArgs (args action)]
                         ++ (edit_prompt <$> dict_keys (args action)) |}).
Proof.
  intros He ND Hlen edited_args. subst edited_args.
  assert (P : prompt_decision action
                {| stdin := line :: lines ++ rest; stdout := out |}
              = Returned (Edit (name action) (apply_edits (args action) lines))
                  {| stdin := rest;
                     stdout := out ++ banner action
                               ++ [Prompt DECISION_PROMPT;
                                   PrintCurrentArgs (args action)]
                               ++ (edit_prompt <$> dict_keys (args action)) |}).
  { rewrite prompt_decision_branch, He.
    change (String.eqb "e" "a") with false.
    change (String.eqb "e" "r") with false.
    change (String.eqb "e" "e") with true. cbv iota.
    io_step. cbn [stdin stdout].
    erewrite bind_returned
      by (apply (edit_loop_run (args action) [] lines rest); assumption).
    unfold mret, IO_ret. cbn [app]. by rewrite <- !app_assoc. }
  split; [exact P|].
  split; [|split; [|split; [|intros decision; by apply hitl_round_single]]].
  - unfold apply_edits, dict_keys. clear P.
    revert lines Hlen. clear. induction (args action) as [|[k v] d IH];
      intros [|l lines] Hlen; try discriminate; simpl; [done|].
    f_equal. apply IH. by injection Hlen.
  - intros i key value new_line Ha Hl.
    unfold apply_edits. apply lookup_zip_with_Some.
    by exists (key, value), new_line.
  - intros email_id body id_line body_line tcid runtime Ha -> Hid Hbody.
    rewrite Ha. cbn [apply_edits zip_with fst snd].
    unfold edited_value. rewrite Hid. cbn [Text.truthy].
    assert (T : Text.truthy (Text.strip body_line) = true)
      by (by destruct (Text.strip body_line)).
    rewrite T. split; [reflexivity|].
    intros recipient Hrec <-. unfold reply_to_email. by rewrite Hrec.
Qed.

Lemma edit_substitutes_arguments_witness :
  let action := {| name := "reply_to_email";
                   args := [("email_id", "1"); ("body", "draft")] |} in
  dict_keys (apply_edits (args action) ["  "; " Sounds great, see you Saturday! "])
  = dict_keys (args action)
  ∧ apply_edits (args action) ["  "; " Sounds great, see you Saturday! "]
    = [("email_id", "1"); ("body", "Sounds great, see you Saturday!")].
Proof.
  intros action. split; [|reflexivity].
  refine (proj1 (proj2 (edit_substitutes_arguments action "E"
                          ["  "; " Sounds great, see you Saturday! "] [] [] _ _ _))).
  - reflexivity.
  - simpl. apply NoDup_cons. split.
    + intros H. apply elem_of_cons in H as [H|H]; [discriminate H|inversion H].
    + apply NoDup_cons. split; [intros H; inversion H|apply NoDup_nil_2].
  - reflexivity.
Defined.

(** * Further properties of the tools *)

(** ** Reading an email *)

Lemma read_email_loop_first (email_id : string) (pre suf : list Email)
    (email : Email) :
  (∀ e, e ∈ pre → e_id e ≠ email_id) → e_id email = email_id →
  read_email_loop email_id (pre ++ email :: suf) = email_text email.
Proof.
  intros Hpre E. induction pre as [|e pre IH]; simpl.
  - by rewrite (proj2 (String.eqb_eq _ _) E).
  - rewrite (proj2 (String.eqb_neq (e_id e) email_id)) by (apply Hpre; left).
    apply IH. intros e' H. apply Hpre. by right.
Qed.

Lemma read_email_loop_unknown (email_id : string) (l : list Email) :
  (∀ e, e ∈ l → e_id e ≠ email_id) →
  read_email_loop email_id l = not_found email_id.
Proof.
  induction l as [|e l IH]; intros H; simpl; [done|].
  rewrite (proj2 (String.eqb_neq (e_id e) email_id)) by (apply H; left).
  apply IH. intros e' H'. apply H. by right.
Qed.

(** X1. [read_email] answers with the first record of the inbox that has
    the given id, whatever follows it (a later record with the same id is
    never shown), and running it changes neither the inbox nor the
    processed ids. *)
Theorem read_email_first_match (s : InboxState) (tcid email_id : string)
    (pre suf : list Email) (email : Email) :
  inbox s = pre ++ email :: suf →
  (∀ e, e ∈ pre → e_id e ≠ email_id) → e_id email = email_id →
  read_email email_id {| state := s; tool_call_id := tcid |}
  = "From: " +:+ e_from email +:+ Text.nl
    +:+ "Subject: " +:+ e_subject email +:+ Text.nl
    +:+ "Body: " +:+ e_body email
  ∧ exec s (tcid, ReadEmail email_id)
    = {| messages := messages s ++ [ToolMessage (email_text email) tcid];
         inbox := inbox s;
         processed_ids := processed_ids s |}.
Proof.
  intros Hi Hpre E.
  assert (R : read_email email_id {| state := s; tool_call_id := tcid |}
              = email_text email).
  { unfold read_email. cbn [state]. rewrite Hi.
    by apply read_email_loop_first. }
  split; [exact R|]. unfold exec. cbn [fst snd invoke_tool apply_result].
  by rewrite R.
Qed.

Lemma read_email_first_match_witness :
  read_email "4" {| state := INITIAL_STATE; tool_call_id := "call-1" |}
  = "From: mike@example.com" +:+ Text.nl
    +:+ "Subject: Hike on Sunday?" +:+ Text.nl
    +:+ "Body: Hey, a group of us are hiking the ridge trail this Sunday morning. Want to join? We're meeting at 8am at the trailhead.".
Proof.
  refine (proj1 (read_email_first_match INITIAL_STATE "call-1" "4"
                   (take 3 SAMPLE_INBOX) (drop 4 SAMPLE_INBOX)
                   {| e_id := "4"; e_from := "mike@example.com";
                      e_subject := "Hike on Sunday?";
                      e_body := "Hey, a group of us are hiking the ridge trail this Sunday morning. Want to join? We're meeting at 8am at the trailhead." |}
                   _ _ _)).
  - reflexivity.
  - intros e H. vm_compute in H.
    repeat (apply elem_of_cons in H as [->|H]; [discriminate|]).
    inversion H.
  - reflexivity.
Defined.

(** X2. [read_email] with an id no record has answers with the not-found
    text, as a string and not as an error, and that answer is never the
    text of a record: the caller can tell the two apart. *)
Theorem read_email_unknown (s : InboxState) (tcid email_id : string) :
  (∀ e, e ∈ inbox s → e_id e ≠ email_id) →
  read_email email_id {| state := s; tool_call_id := tcid |}
  = "Email with ID " +:+ email_id +:+ " not found."
  ∧ (∀ email, read_email email_id {| state := s; tool_call_id := tcid |}
              ≠ email_text email)
  ∧ inbox (exec s (tcid, ReadEmail email_id)) = inbox s
  ∧ processed_ids (exec s (tcid, ReadEmail email_id)) = processed_ids s.
Proof.
  intros H.
  assert (R : read_email email_id {| state := s; tool_call_id := tcid |}
              = not_found email_id)
    by (by apply read_email_loop_unknown).
  split; [exact R|]. split; [|split; reflexivity].
  intros email. rewrite R. unfold not_found, email_text. simpl. discriminate.
Qed.

Lemma read_email_unknown_witness :
  read_email "42" {| state := INITIAL_STATE; tool_call_id := "call-1" |}
  = "Email with ID 42 not found.".
Proof.
  refine (proj1 (read_email_unknown INITIAL_STATE "call-1" "42" _)).
  intros e H. vm_compute in H.
  repeat (apply elem_of_cons in H as [->|H]; [discriminate|]).
  inversion H.
Defined.

(** ** Replying *)

Lemma find_recipient_first (email_id : string) (pre suf : list Email)
    (email : Email) :
  (∀ e, e ∈ pre → e_id e ≠ email_id) → e_id email = email_id →
  find_recipient email_id (pre ++ email :: suf) = Some (e_from email).
Proof.
  intros Hpre E. induction pre as [|e pre IH]; simpl.
  - by rewrite (proj2 (String.eqb_eq _ _) E).
  - rewrite (proj2 (String.eqb_neq (e_id e) email_id)) by (apply Hpre; left).
    apply IH. intros e' H. apply Hpre. by right.
Qed.

(** X3. A reply to an id the inbox holds goes to the sender of the first
    record with that id: the tool's update appends the id to the processed
    ids and carries the one message "Reply sent to <sender>: <body>" with
    the body as given; the inbox is not part of the update. *)
Theorem reply_to_first_match (s : InboxState) (tcid email_id body : string)
    (pre suf : list Email) (email : Email) :
  inbox s = pre ++ email :: suf →
  (∀ e, e ∈ pre → e_id e ≠ email_id) → e_id email = email_id →
  reply_to_email email_id body {| state := s; tool_call_id := tcid |}
  = {| upd_inbox := None;
       upd_processed_ids := Some (get_processed_ids s ++ [email_id]);
       upd_messages :=
         [ToolMessage ("Reply sent to " +:+ e_from email +:+ ": " +:+ body)
                      tcid] |}.
Proof.
  intros Hi Hpre E. unfold reply_to_email. cbn [state tool_call_id].
  rewrite Hi, (find_recipient_first email_id pre suf email Hpre E).
  reflexivity.
Qed.

Lemma reply_to_first_match_witness :
  reply_to_email "1" "Sounds great, see you Saturday!"
                 {| state := INITIAL_STATE; tool_call_id := "call-1" |}
  = {| upd_inbox := None;
       upd_processed_ids := Some ["1"];
       upd_messages :=
         [ToolMessage "Reply sent to jane@example.com: Sounds great, see you Saturday!"
                      "call-1"] |}.
Proof.
  refine (reply_to_first_match INITIAL_STATE "call-1" "1"
            "Sounds great, see you Saturday!" [] (drop 1 SAMPLE_INBOX)
            {| e_id := "1"; e_from := "jane@example.com";
               e_subject := "Coffee this weekend?";
               e_body := "Hey! Are you free this Saturday for coffee? I found a great new café downtown. Let me know!" |}
            _ _ _).
  - reflexivity.
  - intros e H. inversion H.
  - reflexivity.
Defined.

(** ** How the processed ids grow *)

Lemma get_processed_exec (s : InboxState) (c : string * ToolCall) :
  get_processed_ids (exec s c) = get_processed_ids s ++ marked_by s [c].
Proof.
  destruct c as [tcid [ | i | i b | i]]; unfold marked_by; simpl.
  - unfold exec; simpl. by rewrite app_nil_r.
  - unfold exec; simpl. by rewrite app_nil_r.
  - rewrite exec_reply, find_recipient_found.
    destruct (find_recipient i (inbox s)); simpl; [done|by rewrite app_nil_r].
  - rewrite exec_delete.
    destruct (found i s); simpl; [done|by rewrite app_nil_r].
Qed.

Lemma exec_all_inbox (calls : list (string * ToolCall)) (s : InboxState) :
  inbox (exec_all calls s) = inbox s.
Proof.
  revert s. induction calls as [|c calls IH]; intros s; [done|].
  change (exec_all (c :: calls) s) with (exec_all calls (exec s c)).
  by rewrite IH, exec_inbox.
Qed.

Lemma marked_by_inbox (s s' : InboxState) (calls : list (string * ToolCall)) :
  inbox s' = inbox s → marked_by s' calls = marked_by s calls.
Proof. intros H. unfold marked_by, found. by rewrite H. Qed.

Lemma marked_by_cons (s : InboxState) (c : string * ToolCall)
    (calls : list (string * ToolCall)) :
  marked_by s (c :: calls) = marked_by s [c] ++ marked_by s calls.
Proof.
  unfold marked_by. simpl.
  destruct (target (snd c)) as [i|]; [|done]. by destruct (found i s).
Qed.

Lemma get_processed_exec_all (calls : list (string * ToolCall))
    (s : InboxState) :
  get_processed_ids (exec_all calls s) = get_processed_ids s ++ marked_by s calls.
Proof.
  revert s. induction calls as [|c calls IH]; intros s.
  - simpl. by rewrite app_nil_r.
  - change (exec_all (c :: calls) s) with (exec_all calls (exec s c)).
    rewrite IH, get_processed_exec.
    rewrite (marked_by_inbox s (exec s c) calls (exec_inbox s c)).
    by rewrite <- app_assoc, <- marked_by_cons.
Qed.

Lemma found_store_ids (i : string) (s : InboxState) :
  found i s = true <-> i ∈ store_ids s.
Proof.
  unfold store_ids. rewrite list_elem_of_fmap. split.
  - intros F. destruct (find_recipient i (inbox s)) eqn:R.
    + clear F. induction (inbox s) as [|e l IH]; [discriminate|].
      simpl in R. destruct (String.eqb_spec (e_id e) i) as [E|E].
      * exists e. split; [done|left].
      * destruct (IH R) as (e' & ? & ?). exists e'. split; [done|by right].
    + rewrite find_recipient_found, R in F. discriminate.
  - intros (e & -> & He). apply found_true. by exists e.
Qed.

Lemma marked_by_elem (s : InboxState) (calls : list (string * ToolCall))
    (i : string) :
  i ∈ marked_by s calls
  <-> found i s = true ∧ ∃ c, c ∈ calls ∧ target (snd c) = Some i.
Proof.
  unfold marked_by. rewrite list_elem_of_omap. split.
  - intros (c & Hc & H). destruct (target (snd c)) as [j|] eqn:T; [|done].
    destruct (found j s) eqn:F; [|done]. injection H as ->.
    split; [done|]. by exists c.
  - intros (F & c & Hc & T). exists c. split; [done|]. by rewrite T, F.
Qed.

(** X4. Whatever tool calls run, in whatever order, the processed ids only
    grow at the end: the list after the calls is the list before them
    followed by the targets of the replies and deletes that found their
    record, in call order.  So there is at most one new entry per call, and
    every new entry is the id of a record of the inbox. *)
Theorem processed_ids_append_only (calls : list (string * ToolCall))
    (s : InboxState) :
  get_processed_ids (exec_all calls s)
  = get_processed_ids s ++ marked_by s calls
  ∧ (length (marked_by s calls) ≤ length calls)%nat
  ∧ (∀ i, i ∈ marked_by s calls → i ∈ store_ids s).
Proof.
  split; [apply get_processed_exec_all|]. split.
  - induction calls as [|c calls IH]; [done|].
    rewrite marked_by_cons, length_app. unfold marked_by at 1. simpl.
    destruct (target (snd c)) as [i|]; [destruct (found i s)|]; simpl; lia.
  - intros i [F _]%marked_by_elem. by apply found_store_ids.
Qed.

(** X5. The processed ids stay within the store: if every processed id is
    the id of a record of the inbox, this is still so after any sequence
    of tool calls. *)
Theorem processed_within_store (calls : list (string * ToolCall))
    (s : InboxState) :
  ProcessedSet s ⊆ list_to_set (store_ids s) →
  ProcessedSet (exec_all calls s)
  ⊆ list_to_set (store_ids (exec_all calls s)).
Proof.
  intros H i. unfold ProcessedSet, store_ids.
  rewrite get_processed_exec_all, exec_all_inbox.
  rewrite !elem_of_list_to_set, elem_of_app. intros [Hi|Hi].
  - apply (elem_of_list_to_set (C:=gset string)), H.
    by apply elem_of_list_to_set.
  - apply marked_by_elem in Hi as [F _]. by apply found_store_ids.
Qed.

Lemma processed_within_store_witness :
  ProcessedSet (exec_all [("call-1", DeleteEmail "3");
                          ("call-2", ReplyToEmail "9" "hello")] INITIAL_STATE)
  ⊆ list_to_set (store_ids (exec_all [("call-1", DeleteEmail "3");
                                      ("call-2", ReplyToEmail "9" "hello")]
                                     INITIAL_STATE)).
Proof.
  apply (processed_within_store
           [("call-1", DeleteEmail "3"); ("call-2", ReplyToEmail "9" "hello")]
           INITIAL_STATE).
  intros i Hi. change (i ∈ (∅ : gset string)) in Hi.
  by apply not_elem_of_empty in Hi.
Defined.

(** ** The remaining-work count under tool calls *)

Lemma py_in_app (x : string) (l1 l2 : list string) :
  py_in x (l1 ++ l2) = py_in x l1 || py_in x l2.
Proof. unfold py_in. apply existsb_app. Qed.

Lemma unprocessed_le (l : list Email) (P Q : list string) :
  (length (List.filter (fun e => negb (py_in (e_id e) (P ++ Q))) l)
   ≤ length (List.filter (fun e => negb (py_in (e_id e) P)) l))%nat.
Proof.
  induction l as [|e l IH]; simpl; [done|].
  rewrite py_in_app.
  destruct (py_in (e_id e) P), (py_in (e_id e) Q); simpl; lia.
Qed.

(** X6. The remaining-work count never goes up: after any sequence of tool
    calls it is at most what it was, so the prompt's count can only fall
    during a session. *)
Theorem remaining_never_increases (calls : list (string * ToolCall))
    (s : InboxState) :
  (remaining (exec_all calls s) ≤ remaining s)%nat.
Proof.
  unfold remaining.
  rewrite get_processed_exec_all, exec_all_inbox. apply unprocessed_le.
Qed.

(** X7. With unique ids in the inbox, a reply or a delete that targets a
    record not yet processed lowers the remaining-work count by exactly
    one; on an id already processed either leaves the count as it is. *)
Theorem remaining_decrements (s : InboxState) (tcid i body : string) :
  NoDup (store_ids s) → i ∈ store_ids s →
  (i ∉ ProcessedSet s →
     remaining (exec s (tcid, DeleteEmail i)) + 1 = remaining s
     ∧ remaining (exec s (tcid, ReplyToEmail i body)) + 1 = remaining s)
  ∧ (i ∈ ProcessedSet s →
     remaining (exec s (tcid, DeleteEmail i)) = remaining s
     ∧ remaining (exec s (tcid, ReplyToEmail i body)) = remaining s).
Proof.
  intros ND Hi.
  assert (F : found i s = true) by (by apply found_store_ids).
  assert (step : ∀ c, ProcessedSet (exec s (tcid, c)) = ProcessedSet s ∪ {[i]} →
            (i ∉ ProcessedSet s → remaining (exec s (tcid, c)) + 1 = remaining s)
            ∧ (i ∈ ProcessedSet s → remaining (exec s (tcid, c)) = remaining s)).
  { intros c HP.
    pose proof (exec_inbox s (tcid, c)) as HI.
    assert (ND' : NoDup (store_ids (exec s (tcid, c))))
      by (unfold store_ids; by rewrite HI).
    pose proof (remaining_plus_processed _ ND') as R'.
    pose proof (remaining_plus_processed _ ND) as R.
    unfold store_ids in R'. rewrite HI, HP in R'. fold (store_ids s) in R'.
    set (ids := list_to_set (C:=gset string) (store_ids s)) in *.
    assert (Hids : i ∈ ids) by (by apply elem_of_list_to_set).
    split; intros Hp.
    - assert (E : (ProcessedSet s ∪ {[i]}) ∩ ids
                  = {[i]} ∪ (ProcessedSet s ∩ ids)).
      { apply set_eq. intros x.
        rewrite !elem_of_intersection, !elem_of_union, !elem_of_intersection,
          !elem_of_singleton.
        split; [tauto|]. intros [->|[? ?]]; auto. }
      rewrite E, size_union, size_singleton in R'; [lia|].
      apply disjoint_singleton_l. rewrite elem_of_intersection. tauto.
    - assert (E : ProcessedSet s ∪ {[i]} = ProcessedSet s).
      { apply set_eq. intros x. rewrite elem_of_union, elem_of_singleton.
        split; [intros [?| ->]; done|auto]. }
      rewrite E in R'. lia. }
  pose proof (step (DeleteEmail i)) as D. pose proof (step (ReplyToEmail i body)) as R.
  rewrite ProcessedSet_delete, F in D. rewrite ProcessedSet_reply, F in R.
  specialize (D eq_refl). specialize (R eq_refl).
  split; intros Hp; split; (apply D || apply R); exact Hp.
Qed.

Lemma remaining_decrements_witness :
  remaining (exec INITIAL_STATE ("call-1", DeleteEmail "3")) + 1
  = remaining INITIAL_STATE.
Proof.
  refine (proj1 (proj1 (remaining_decrements INITIAL_STATE "call-1" "3" "" _ _) _)).
  - compute_done.
  - compute_done.
  - compute_done.
Defined.

(** X8. Working through the inbox ends the session's work: once the calls
    include a reply or a delete for the id of every record, the remaining
    count is 0 and the prompt is the all-processed one, whatever other
    calls ran in between and in whatever order. *)
Theorem all_handled_is_done (calls : list (string * ToolCall))
    (s : InboxState) :
  (∀ e, e ∈ inbox s → ∃ c, c ∈ calls ∧ target (snd c) = Some (e_id e)) →
  remaining (exec_all calls s) = 0
  ∧ inbox_prompt {| request_state := exec_all calls s |}
    = ALL_PROCESSED_PROMPT.
Proof.
  intros H.
  assert (R : remaining (exec_all calls s) = 0).
  { unfold remaining. rewrite get_processed_exec_all, exec_all_inbox.
    assert (G : ∀ e, e ∈ inbox s →
                     py_in (e_id e) (get_processed_ids s ++ marked_by s calls)
                     = true).
    { intros e He. rewrite py_in_app. apply orb_true_iff. right.
      apply py_in_true, marked_by_elem. split; [|by apply H].
      apply found_true. by exists e. }
    clear H. revert G. generalize (inbox s). intros l.
    induction l as [|e l IH]; intros G; [done|]. simpl.
    rewrite G by left. simpl. apply IH. intros e' He'. apply G. by right. }
  split; [exact R|]. by apply inbox_prompt_done.
Qed.

(** Membership in a list that is written out. *)
Ltac in_list :=
  repeat first [apply list_elem_of_here | apply list_elem_of_further].

Lemma all_handled_is_done_witness :
  remaining (exec_all [("c1", ReplyToEmail "1" "Sure!"); ("c2", CheckInbox);
                       ("c3", ReplyToEmail "2" "Will do."); ("c4", DeleteEmail "3");
                       ("c5", DeleteEmail "5"); ("c6", ReplyToEmail "4" "I'm in.")]
                      INITIAL_STATE) = 0.
Proof.
  refine (proj1 (all_handled_is_done _ INITIAL_STATE _)).
  intros e H. unfold INITIAL_STATE, SAMPLE_INBOX in H. cbn [inbox] in H.
  apply elem_of_cons in H as [->|H];
    [exists ("c1", ReplyToEmail "1" "Sure!"); split; [in_list|reflexivity]|].
  apply elem_of_cons in H as [->|H];
    [exists ("c3", ReplyToEmail "2" "Will do."); split; [in_list|reflexivity]|].
  apply elem_of_cons in H as [->|H];
    [exists ("c4", DeleteEmail "3"); split; [in_list|reflexivity]|].
  apply elem_of_cons in H as [->|H];
    [exists ("c6", ReplyToEmail "4" "I'm in."); split; [in_list|reflexivity]|].
  apply elem_of_cons in H as [->|H];
    [exists ("c5", DeleteEmail "5"); split; [in_list|reflexivity]|].
  inversion H.
Defined.

(** ** Tool messages *)

(** X9. Every tool call is answered by exactly one tool message carrying
    the call's id: the updates of [reply_to_email] and [delete_email] hold
    one [ToolMessage] with the runtime's [tool_call_id] on a hit and on a
    miss alike, and after any sequence of calls the messages are the old
    ones, untouched, followed by one message per call in call order. *)
Theorem one_tool_message_per_call :
  (∀ email_id body runtime,
      ∃ txt, upd_messages (reply_to_email email_id body runtime)
             = [ToolMessage txt (tool_call_id runtime)])
  ∧ (∀ email_id runtime,
      ∃ txt, upd_messages (delete_email email_id runtime)
             = [ToolMessage txt (tool_call_id runtime)])
  ∧ (∀ calls s,
      ∃ msgs, messages (exec_all calls s) = messages s ++ msgs
              ∧ Forall2 (fun m c => ∃ txt, m = ToolMessage txt (fst c))
                        msgs calls).
Proof.
  assert (R : ∀ email_id body runtime,
            ∃ txt, upd_messages (reply_to_email email_id body runtime)
                   = [ToolMessage txt (tool_call_id runtime)]).
  { intros. unfold reply_to_email.
    destruct (find_recipient _ _); simpl; by eexists. }
  assert (D : ∀ email_id runtime,
            ∃ txt, upd_messages (delete_email email_id runtime)
                   = [ToolMessage txt (tool_call_id runtime)]).
  { intros. unfold delete_email. destruct (negb _); simpl; by eexists. }
  split; [exact R|]. split; [exact D|].
  assert (one : ∀ s c, ∃ txt, messages (exec s c)
                              = messages s ++ [ToolMessage txt (fst c)]).
  { intros s [tcid [ | i | i b | i]]; unfold exec; simpl.
    - by eexists.
    - by eexists.
    - destruct (R i b {| state := s; tool_call_id := tcid |}) as [txt ->].
      by eexists.
    - destruct (D i {| state := s; tool_call_id := tcid |}) as [txt ->].
      by eexists. }
  intros calls. induction calls as [|c calls IH]; intros s.
  - exists []. split; [by rewrite app_nil_r|constructor].
  - change (exec_all (c :: calls) s) with (exec_all calls (exec s c)).
    destruct (IH (exec s c)) as (msgs & E & F).
    destruct (one s c) as [txt Hone].
    exists (ToolMessage txt (fst c) :: msgs). split.
    + rewrite E, Hone. by rewrite <- app_assoc.
    + constructor; [by eexists|exact F].
Qed.

(** ** What runs without approval *)

(** X10. The tools that run without a human decision ([interrupt_on] is
    false for them) are read-only: such a call adds its answer to the
    messages and leaves the inbox and the processed ids exactly as they
    were.  Only a gated tool can change the processed ids. *)
Theorem ungated_tools_read_only (s : InboxState) (tcid : string)
    (call : ToolCall) :
  interrupt_on call = false →
  inbox (exec s (tcid, call)) = inbox s
  ∧ processed_ids (exec s (tcid, call)) = processed_ids s
  ∧ remaining (exec s (tcid, call)) = remaining s
  ∧ ∃ txt, messages (exec s (tcid, call))
           = messages s ++ [ToolMessage txt tcid].
Proof.
  intros H. destruct call; try discriminate H;
    (split; [reflexivity|]; split; [reflexivity|]; split; [reflexivity|];
     by eexists).
Qed.

Lemma ungated_tools_read_only_witness :
  processed_ids (exec INITIAL_STATE ("call-1", ReadEmail "3")) = Some [].
Proof.
  refine (proj1 (proj2 (ungated_tools_read_only INITIAL_STATE "call-1"
                          (ReadEmail "3") _))).
  reflexivity.
Defined.

(** ** The count in the prompt *)

Lemma append_prefix_inj (p x y : string) : p +:+ x = p +:+ y → x = y.
Proof. induction p as [|c p IH]; simpl; [done|]. intros [= H]. auto. Qed.

Lemma length_append (x y : string) :
  String.length (x +:+ y) = String.length x + String.length y.
Proof. induction x as [|c x IH]; simpl; [done|]. by rewrite IH. Qed.

Lemma append_suffix_inj (x y q : string) : x +:+ q = y +:+ q → x = y.
Proof.
  revert y. induction x as [|c x IH]; intros [|d y] H; simpl in H.
  - done.
  - apply (f_equal String.length) in H.
    rewrite ?length_append in H. simpl in H. rewrite ?length_append in H. lia.
  - apply (f_equal String.length) in H.
    rewrite ?length_append in H. simpl in H. rewrite ?length_append in H. lia.
  - injection H as -> H. f_equal. by apply IH.
Qed.

Lemma str_of_nat_inj (n m : nat) :
  Text.str_of_nat n = Text.str_of_nat m → n = m.
Proof.
  assert (nonnil : ∀ k, Nat.to_uint k ≠ Decimal.Nil).
  { intros k H. assert (k = 0).
    { rewrite <- (DecimalNat.Unsigned.of_to k), H. reflexivity. }
    subst k. discriminate H. }
  unfold Text.str_of_nat. intros H.
  apply (f_equal NilZero.uint_of_string) in H.
  rewrite !NilZero.usu in H by apply nonnil.
  injection H as H. by apply DecimalNat.Unsigned.to_uint_inj.
Qed.

(** X11. The prompt tells the count: two states get the same system prompt
    exactly when they have the same number of unprocessed emails, so the
    prompt for a count of n is never the all-processed prompt nor the
    prompt of another count. *)
Theorem inbox_prompt_tells_count (s1 s2 : InboxState) :
  inbox_prompt {| request_state := s1 |} = inbox_prompt {| request_state := s2 |}
  <-> remaining s1 = remaining s2.
Proof.
  unfold inbox_prompt. cbn [request_state]. split; [|by intros ->].
  destruct (Nat.eqb_spec (remaining s1) 0) as [E1|E1],
           (Nat.eqb_spec (remaining s2) 0) as [E2|E2].
  - congruence.
  - intros H. unfold ALL_PROCESSED_PROMPT in H. simpl in H. discriminate H.
  - intros H. unfold ALL_PROCESSED_PROMPT in H. simpl in H. discriminate H.
  - intros H. apply append_prefix_inj, append_suffix_inj in H.
    by apply str_of_nat_inj.
Qed.

(** ** The listing and the count agree *)

Lemma inbox_line_new (P : list string) (email : Email) :
  String.prefix "[NEW]" (inbox_line P email) = negb (py_in (e_id email) P)
  ∧ String.prefix "[DONE]" (inbox_line P email) = py_in (e_id email) P.
Proof.
  unfold inbox_line, status_of. by destruct (py_in (e_id email) P).
Qed.

(** X20. The count the prompt is built from is the number of rows the
    listing marks [NEW]: what [inbox_prompt] tells the model and what
    [check_inbox] shows it never disagree, and the rows marked [DONE] are
    the rest of the inbox. *)
Theorem listing_agrees_with_count (s : InboxState) (tcid : string) :
  let lines := check_inbox_lines {| state := s; tool_call_id := tcid |} in
  length (List.filter (String.prefix "[NEW]") lines) = remaining s
  ∧ length (List.filter (String.prefix "[DONE]") lines) + remaining s
    = length (inbox s).
Proof.
  intros lines. subst lines. rewrite check_inbox_lines_fmap. cbn [state].
  unfold remaining. induction (inbox s) as [|e l [IH1 IH2]]; [done|].
  cbn [fmap list_fmap List.filter].
  change (list_fmap Email string (inbox_line (get_processed_ids s)) l)
    with (inbox_line (get_processed_ids s) <$> l).
  destruct (inbox_line_new (get_processed_ids s) e) as [-> ->].
  destruct (py_in (e_id e) (get_processed_ids s)); cbn [negb length]; lia.
Qed.

(** * Further properties of the decision prompt and the loop *)

Lemma io_ret_run {A : Type} (a : A) (c : Console) :
  (mret a : IO A) c = Returned a c.
Proof. reflexivity. Qed.

Lemma prompt_decision_eof (action : ActionRequest) (out : list ConsoleOut) :
  prompt_decision action {| stdin := []; stdout := out |} = Raised EOFError.
Proof.
  unfold prompt_decision. do 5 io_step. by apply bind_raised.
Qed.

Lemma edit_loop_short (keys : list string) (d : dict) (lines : list string)
    (out : list ConsoleOut) :
  length lines < length keys →
  edit_loop keys d {| stdin := lines; stdout := out |} = Raised EOFError.
Proof.
  revert d lines out. induction keys as [|key keys IH]; intros d lines out H.
  - simpl in H. lia.
  - destruct lines as [|line lines]; cbn [edit_loop].
    + by apply bind_raised.
    + io_step. apply IH. simpl in H. lia.
Qed.

(** X12. The approve answer is a single line: when the stripped,
    lower-cased line is [a] the prompt returns the approve decision having
    read that line only and written nothing after the decision prompt, so
    the lines that follow are left for the next request. *)
Theorem approve_reads_one_line (action : ActionRequest) (line : string)
    (rest : list string) (out : list ConsoleOut) :
  choice_of line = "a" →
  prompt_decision action {| stdin := line :: rest; stdout := out |}
  = Returned Approve
      {| stdin := rest;
         stdout := out ++ banner action ++ [Prompt DECISION_PROMPT] |}.
Proof.
  intros H. rewrite prompt_decision_branch, H. reflexivity.
Qed.

Lemma approve_reads_one_line_witness :
  prompt_decision {| name := "delete_email"; args := [("email_id", "3")] |}
                  {| stdin := ["  A "; "r"]; stdout := [] |}
  = Returned Approve
      {| stdin := ["r"];
         stdout := banner {| name := "delete_email"; args := [("email_id", "3")] |}
                   ++ [Prompt DECISION_PROMPT] |}.
Proof.
  apply (approve_reads_one_line
           {| name := "delete_email"; args := [("email_id", "3")] |}
           "  A " ["r"] []).
  reflexivity.
Defined.

(** X13. When the operator's input runs out the prompt fails with
    [EOFError] and yields no decision: at the decision prompt itself, at
    the reason of a rejection, and in an edit that has fewer lines left
    than the proposal has arguments. *)
Theorem input_exhausted_raises (action : ActionRequest) (line : string)
    (lines : list string) (out : list ConsoleOut) :
  prompt_decision action {| stdin := []; stdout := out |} = Raised EOFError
  ∧ (choice_of line = "r" →
     prompt_decision action {| stdin := [line]; stdout := out |}
     = Raised EOFError)
  ∧ (choice_of line = "e" → length lines < length (args action) →
     prompt_decision action {| stdin := line :: lines; stdout := out |}
     = Raised EOFError).
Proof.
  split; [apply prompt_decision_eof|]. split.
  - intros H. rewrite prompt_decision_branch, H.
    change (String.eqb "r" "a") with false.
    change (String.eqb "r" "r") with true. cbv iota.
    by apply bind_raised.
  - intros H Hlen. rewrite prompt_decision_branch, H.
    change (String.eqb "e" "a") with false.
    change (String.eqb "e" "r") with false.
    change (String.eqb "e" "e") with true. cbv iota.
    io_step. apply bind_raised. apply edit_loop_short.
    unfold dict_keys. by rewrite length_fmap.
Qed.

Lemma input_exhausted_raises_witness :
  prompt_decision {| name := "reply_to_email";
                     args := [("email_id", "1"); ("body", "draft")] |}
                  {| stdin := ["e"; "2"]; stdout := [] |}
  = Raised EOFError.
Proof.
  refine (proj2 (proj2 (input_exhausted_raises
                          {| name := "reply_to_email";
                             args := [("email_id", "1"); ("body", "draft")] |}
                          "e" ["2"] [])) _ _).
  - reflexivity.
  - simpl. lia.
Defined.

(** ** Blank edits *)

Lemma edit_loop_blank (keys : list string) (d : dict)
    (lines rest : list string) (out : list ConsoleOut) :
  length lines = length keys → Forall blank lines →
  edit_loop keys d {| stdin := lines ++ rest; stdout := out |}
  = Returned d {| stdin := rest; stdout := out ++ (edit_prompt <$> keys) |}.
Proof.
  revert lines out. induction keys as [|key keys IH]; intros lines out Hlen Hb.
  - destruct lines; [|discriminate]. simpl. rewrite app_nil_r. reflexivity.
  - destruct lines as [|line lines]; [discriminate|].
    apply Forall_cons in Hb as [Hline Hb]. injection Hlen as Hlen.
    cbn [edit_loop app]. io_step. unfold blank in Hline. rewrite Hline.
    cbn [Text.truthy stdin stdout]. rewrite IH by done.
    cbn [fmap list_fmap]. by rewrite <- app_assoc.
Qed.

(** X14. An edit in which every argument is answered with a blank line
    (Enter, or blanks only) carries the proposal unchanged: same tool name,
    same arguments in the same order.  This needs no assumption on the
    argument dict. *)
Theorem blank_edit_keeps_proposal (action : ActionRequest) (line : string)
    (lines rest : list string) (out : list ConsoleOut) :
  choice_of line = "e" →
  length lines = length (args action) → Forall blank lines →
  prompt_decision action {| stdin := line :: lines ++ rest; stdout := out |}
  = Returned (Edit (name action) (args action))
      {| stdin := rest;
         stdout := out ++ banner action
                   ++ [Prompt DECISION_PROMPT; PrintCurrentArgs (args action)]
                   ++ (edit_prompt <$> dict_keys (args action)) |}.
Proof.
  intros He Hlen Hb. rewrite prompt_decision_branch, He.
  change (String.eqb "e" "a") with false.
  change (String.eqb "e" "r") with false.
  change (String.eqb "e" "e") with true. cbv iota.
  io_step. cbn [stdin stdout].
  erewrite bind_returned.
  2:{ apply edit_loop_blank; [|done]. unfold dict_keys. by rewrite length_fmap. }
  rewrite io_ret_run. cbn [app]. by rewrite <- !app_assoc.
Qed.

Lemma blank_edit_keeps_proposal_witness :
  prompt_decision {| name := "reply_to_email";
                     args := [("email_id", "1"); ("body", "draft")] |}
                  {| stdin := [" E"; ""; "   "; "a"]; stdout := [] |}
  = Returned (Edit "reply_to_email" [("email_id", "1"); ("body", "draft")])
      {| stdin := ["a"];
         stdout := banner {| name := "reply_to_email";
                             args := [("email_id", "1"); ("body", "draft")] |}
                   ++ [Prompt DECISION_PROMPT;
                       PrintCurrentArgs [("email_id", "1"); ("body", "draft")];
                       edit_prompt "email_id"; edit_prompt "body"] |}.
Proof.
  apply (blank_edit_keeps_proposal
           {| name := "reply_to_email";
              args := [("email_id", "1"); ("body", "draft")] |}
           " E" [""; "   "] ["a"] []).
  - reflexivity.
  - reflexivity.
  - repeat constructor.
Defined.

(** ** One prompt per request *)

Lemma decision_prompts_app (o1 o2 : list ConsoleOut) :
  decision_prompts (o1 ++ o2) = decision_prompts o1 + decision_prompts o2.
Proof. unfold decision_prompts. by rewrite List.filter_app, length_app. Qed.

Lemma decision_prompts_banner (action : ActionRequest) :
  decision_prompts (banner action) = 0.
Proof.
  assert (A : ∀ d : dict, decision_prompts (arg_line <$> d) = 0).
  { intros d. induction d as [|kv d IH]; [reflexivity|exact IH]. }
  unfold banner. rewrite !decision_prompts_app, A. reflexivity.
Qed.

Lemma decision_prompts_edit (keys : list string) :
  decision_prompts (edit_prompt <$> keys) = 0.
Proof. induction keys as [|k keys IH]; [reflexivity|exact IH]. Qed.

Lemma edit_loop_returned (keys : list string) (d d' : dict) (c c' : Console) :
  edit_loop keys d c = Returned d' c' →
  ∃ used, advanced c c' used (edit_prompt <$> keys).
Proof.
  revert d c. induction keys as [|key keys IH]; intros d [sin out] H.
  - injection H as _ <-. exists []. split; simpl; [done|by rewrite app_nil_r].
  - destruct sin as [|line sin]; [discriminate H|].
    cbn [edit_loop] in H. revert H. io_step. intros H.
    destruct (IH _ _ H) as (used & Hin & Hout). cbn [stdin stdout] in *.
    exists (line :: used). split; cbn [stdin stdout].
    + by rewrite Hin.
    + rewrite Hout. cbn [fmap list_fmap]. by rewrite <- app_assoc.
Qed.

(** Two writings of the same output, up to the nesting of [++]. *)
Ltac same_output :=
  unfold banner; repeat (progress (rewrite <- ?app_assoc; simpl)); reflexivity.

Lemma prompt_decision_returned (action : ActionRequest) (d : Decision)
    (c c' : Console) :
  prompt_decision action c = Returned d c' →
  ∃ used extra, advanced c c' used extra
                ∧ (1 ≤ length used)%nat ∧ decision_prompts extra = 1.
Proof.
  destruct c as [[|line rest] out]; [by rewrite prompt_decision_eof|].
  rewrite prompt_decision_branch.
  pose proof (decision_prompts_banner action) as B.
  destruct (String.eqb (choice_of line) "a").
  { intros [= <- <-]. exists [line], (banner action ++ [Prompt DECISION_PROMPT]).
    split; [split; reflexivity|]. split; [simpl; lia|].
    rewrite decision_prompts_app, B. reflexivity. }
  destruct (String.eqb (choice_of line) "r").
  { destruct rest as [|reason rest]; [discriminate|]. io_step.
    intros [= <- <-].
    exists [line; reason],
      (banner action ++ [Prompt DECISION_PROMPT; Prompt "  Reason for rejection: "]).
    split; [split; [reflexivity|]|].
    - cbn [stdout]. same_output.
    - split; [simpl; lia|]. rewrite decision_prompts_app, B. reflexivity. }
  destruct (String.eqb (choice_of line) "e").
  { io_step. cbn [stdin stdout].
    match goal with
    | |- (edit_loop ?k ?a ≫= _) ?c0 = _ → _ =>
        destruct (edit_loop k a c0) as [e c1|] eqn:E
    end; [|by erewrite bind_raised].
    erewrite bind_returned by exact E. intros [= <- <-].
    destruct (edit_loop_returned _ _ _ _ _ E) as (used & Hin & Hout).
    cbn [stdin stdout] in *.
    exists (line :: used),
      (banner action ++ [Prompt DECISION_PROMPT; PrintCurrentArgs (args action)]
       ++ (edit_prompt <$> dict_keys (args action))).
    split; [split|]; cbn [stdin stdout].
    - by rewrite Hin.
    - rewrite Hout. same_output.
    - split; [simpl; lia|].
      rewrite !decision_prompts_app, B, decision_prompts_edit. reflexivity. }
  intros [= <- <-].
  exists [line], (banner action ++ [Prompt DECISION_PROMPT; PrintLine UNRECOGNIZED]).
  split; [split; reflexivity|]. split; [simpl; lia|].
  rewrite decision_prompts_app, B. reflexivity.
Qed.

(** X15. Every request of a batch is put to the operator once: when the
    [for] loop over the batch returns, it has written the decision prompt
    exactly once per request and has taken at least one line of input per
    request, and nothing already written was changed. *)
Theorem one_prompt_per_request (action_requests : list ActionRequest)
    (decision r : option Decision) (c c' : Console) :
  for_action_requests action_requests decision c = Returned r c' →
  ∃ used extra,
    stdin c = used ++ stdin c'
    ∧ stdout c' = stdout c ++ extra
    ∧ (length action_requests ≤ length used)%nat
    ∧ decision_prompts extra = length action_requests.
Proof.
  revert decision c.
  induction action_requests as [|a l IH]; intros decision c H.
  - injection H as _ <-. exists [], []. by rewrite app_nil_r.
  - cbn [for_action_requests] in H.
    destruct (prompt_decision a c) as [d c1|] eqn:E;
      [|by erewrite bind_raised in H].
    erewrite bind_returned in H by exact E.
    destruct (prompt_decision_returned _ _ _ _ E)
      as (u1 & x1 & [Hin1 Hout1] & Hlen1 & Hp1).
    destruct (IH _ _ H) as (u2 & x2 & Hin2 & Hout2 & Hlen2 & Hp2).
    exists (u1 ++ u2), (x1 ++ x2). repeat split.
    + by rewrite Hin1, Hin2, <- app_assoc.
    + by rewrite Hout2, Hout1, <- app_assoc.
    + rewrite length_app. simpl. lia.
    + rewrite decision_prompts_app. simpl. lia.
Qed.

Lemma one_prompt_per_request_witness :
  let reply := {| name := "reply_to_email";
                  args := [("email_id", "2"); ("body", "Thanks, will review")] |} in
  let delete := {| name := "delete_email"; args := [("email_id", "3")] |} in
  let c := {| stdin := ["r"; "not ready"; "a"]; stdout := [] |} in
  let c' := {| stdin := [];
               stdout := banner reply
                         ++ [Prompt DECISION_PROMPT;
                             Prompt "  Reason for rejection: "]
                         ++ banner delete ++ [Prompt DECISION_PROMPT] |} in
  ∃ used extra,
    stdin c = used ++ stdin c'
    ∧ stdout c' = stdout c ++ extra
    ∧ (length [reply; delete] ≤ length used)%nat
    ∧ decision_prompts extra = length [reply; delete].
Proof.
  intros reply delete c c'.
  apply (one_prompt_per_request [reply; delete] None (Some Approve) c c').
  reflexivity.
Defined.

(** ** Rounds and the loop *)

(** X16. A round whose interrupt carries no action request, because the
    key is absent or the list is empty, reads and writes nothing: on the
    first round it fails with [NameError], and on a later round it resumes
    the agent with the decision of the round before. *)
Theorem empty_batch_round (interrupt : Interrupt) (d : Decision) (c : Console) :
  default [] (action_requests interrupt) = [] →
  hitl_round interrupt None c = Raised NameError
  ∧ hitl_round interrupt (Some d) c = Returned ([d], Some d) c.
Proof.
  intros H. unfold hitl_round. rewrite H. split.
  - by erewrite bind_returned by reflexivity.
  - by erewrite bind_returned by reflexivity.
Qed.

Lemma empty_batch_round_witness :
  hitl_round {| action_requests := None |} (Some (Reject "not ready"))
             {| stdin := ["a"]; stdout := [] |}
  = Returned ([Reject "not ready"], Some (Reject "not ready"))
             {| stdin := ["a"]; stdout := [] |}.
Proof.
  refine (proj2 (empty_batch_round {| action_requests := None |}
                   (Reject "not ready") {| stdin := ["a"]; stdout := [] |} _)).
  reflexivity.
Defined.

(** X17. A response with no pending interrupt ends the loop at once: it
    is returned with the agent, and no line is read and nothing written.
    On a response with an interrupt the loop runs one round on the first
    interrupt, resumes the agent with the decisions of that round and goes
    on from the agent's answer, with the decision and the console the round
    left.  And whenever the loop returns a response, whatever the agent
    answered on the way, that response has no pending interrupt. *)
Theorem hitl_loop_exit {Agent : Type}
    (resume : Agent → list Decision → Agent * Response) (fuel : nat)
    (agent : Agent) (response : Response)
    (decision : option Decision) (c : Console) :
  (interrupts response = [] →
   hitl_loop resume fuel agent response decision c
   = Returned (Some (agent, response)) c)
  ∧ (∀ interrupt others decisions decision' c1,
       interrupts response = interrupt :: others →
       hitl_round interrupt decision c = Returned (decisions, decision') c1 →
       hitl_loop resume (S fuel) agent response decision c
       = hitl_loop resume fuel (fst (resume agent decisions))
                   (snd (resume agent decisions)) decision' c1)
  ∧ (∀ agent' response' c',
       hitl_loop resume fuel agent response decision c
       = Returned (Some (agent', response')) c' →
       interrupts response' = []).
Proof.
  split; [apply hitl_loop_no_interrupt|]. split.
  - intros interrupt others decisions decision' c1 I R.
    cbn [hitl_loop]. rewrite I. erewrite bind_returned by exact R.
    cbn [fst snd]. by destruct (resume agent decisions).
  - revert agent response decision c.
    induction fuel as [|fuel IH]; intros agent response decision c
      agent' response' c' H.
    + simpl in H. destruct (interrupts response) eqn:I; [|discriminate H].
      by injection H as <- <- <-.
    + simpl in H. destruct (interrupts response) as [|interrupt rest] eqn:I.
      * by injection H as <- <- <-.
      * destruct (hitl_round interrupt decision c) as [[ds d'] c1|] eqn:E;
          [|by erewrite bind_raised in H].
        erewrite bind_returned in H by exact E. cbn [fst snd] in H.
        destruct (resume agent ds) as [agent1 response1].
        by apply (IH _ _ _ _ _ _ _ H).
Qed.

(** A session of one round: the agent asks for one approval, the operator
    approves, and the resumed agent answers without interrupt. *)
Lemma hitl_loop_exit_witness :
  let done := {| interrupts := []; response_messages := [AIMessage "All done."];
                 response_processed_ids := Some ["3"] |} in
  let action := {| name := "delete_email"; args := [("email_id", "3")] |} in
  let pending :=
    {| interrupts := [{| action_requests := Some [action] |}];
       response_messages := []; response_processed_ids := Some [] |} in
  let resume := fun (n : nat) (_ : list Decision) => (S n, done) in
  hitl_loop resume 3 0 pending None {| stdin := ["a"]; stdout := [] |}
  = Returned (Some (1, done))
      {| stdin := [];
         stdout := [] ++ banner action ++ [Prompt DECISION_PROMPT] |}.
Proof.
  intros done action pending resume.
  rewrite (proj1 (proj2 (hitl_loop_exit resume 2 0 pending None
                           {| stdin := ["a"]; stdout := [] |}))
             {| action_requests := Some [action] |} [] [Approve] (Some Approve)
             {| stdin := [];
                stdout := [] ++ banner action ++ [Prompt DECISION_PROMPT] |}
             eq_refl eq_refl).
  apply (proj1 (hitl_loop_exit resume 2 1 done (Some Approve) _)).
  reflexivity.
Defined.

(** * The chat loops *)

Lemma blank_not_quit (line : string) :
  Text.truthy (Text.strip line) = false → Chat.is_quit line = false.
Proof.
  unfold Chat.is_quit. destruct (Text.strip line); [reflexivity|discriminate].
Qed.

(** Blanks outside ASCII count as blanks here too: a line that is an em
    space is skipped, and [q] between no-break spaces ends the session. *)
Example chat_unicode_blanks :
  let nbsp := String (ascii_of_nat 194) (String (ascii_of_nat 160) "") in
  let emsp := String (ascii_of_nat 226)
                (String (ascii_of_nat 128) (String (ascii_of_nat 131) "")) in
  Chat.is_query emsp = false
  ∧ Chat.is_quit (nbsp +:+ "q" +:+ nbsp) = true
  ∧ Chat.queries [emsp; " eggs "; nbsp +:+ "q" +:+ nbsp; "more"] = ["eggs"]
  ∧ Chat.after_quit [emsp; " eggs "; nbsp +:+ "q" +:+ nbsp; "more"]
    = Some ["more"].
Proof. repeat split; reflexivity. Qed.

(** The loop in one equation: the agent takes the turns of [queries], and
    the run ends on the first quit word or at the end of the input. *)
Lemma chat_loop_run {Agent : Type}
    (stream : Agent → string → Agent * list string) (label goodbye : string)
    (stdin : list string) (agent : Agent) (out : list Chat.Out) :
  ∃ out',
    Chat.chat_loop stream label goodbye agent stdin out
    = match Chat.after_quit stdin with
      | Some rest =>
          Chat.Quit (Chat.turns stream (Chat.queries stdin) agent) rest
                    (out ++ out' ++ [Chat.Ask "You: "; Chat.Line goodbye])
      | None =>
          Chat.Eof (Chat.turns stream (Chat.queries stdin) agent)
                   (out ++ out' ++ [Chat.Ask "You: "])
      end.
Proof.
  revert agent out. induction stdin as [|line rest IH]; intros agent out.
  - exists []. reflexivity.
  - assert (HQ : Chat.is_query line
                 = Text.truthy (Text.strip line) && negb (Chat.is_quit line))
      by reflexivity.
    cbn [Chat.chat_loop Chat.after_quit].
    unfold Chat.queries. cbn [Chat.before_quit].
    destruct (Text.truthy (Text.strip line)) eqn:T; cbn [negb].
    + fold (Chat.is_quit line). destruct (Chat.is_quit line) eqn:Q.
      * exists []. cbn [List.filter fmap list_fmap Chat.turns fold_left app].
        by rewrite <- app_assoc.
      * cbn [List.filter]. rewrite HQ.
        cbn [andb negb fmap list_fmap]. unfold Chat.turns at 1 2.
        cbn [fold_left].
        destruct (stream agent (Text.strip line)) as [agent' tokens] eqn:S.
        cbn [fst].
        destruct (IH agent' ((out ++ [Chat.Ask "You: "])
                             ++ [Chat.Text label] ++ Chat.streamed tokens
                             ++ [Chat.Line Text.nl])) as [out' E].
        exists ([Chat.Ask "You: "; Chat.Text label] ++ Chat.streamed tokens
                ++ [Chat.Line Text.nl] ++ out').
        rewrite E. unfold Chat.queries, Chat.turns.
        destruct (Chat.after_quit rest); f_equal;
          repeat (progress (rewrite <- ?app_assoc; cbn [app])); reflexivity.
    + rewrite (blank_not_quit line T). cbn [List.filter].
      rewrite HQ. cbn [andb].
      destruct (IH agent (out ++ [Chat.Ask "You: "])) as [out' E].
      exists ([Chat.Ask "You: "] ++ out'). rewrite E.
      unfold Chat.queries.
      destruct (Chat.after_quit rest); f_equal;
        repeat (progress (rewrite <- ?app_assoc; cbn [app])); reflexivity.
Qed.

(** X18. In both chat loops the agent gets one turn for every line read
    before the first quit word that is not blank, with the line stripped of
    surrounding blanks, in input order, each turn starting from the agent
    the turn before left; blank lines and the lines after the quit word
    never reach it. *)
Theorem chat_agent_turns {Agent : Type}
    (stream : Agent → string → Agent * list string)
    (agent : Agent) (stdin : list string) :
  Chat.agent_of (Chat.personal_chef stream agent stdin)
  = Chat.turns stream (Chat.queries stdin) agent
  ∧ Chat.agent_of (Chat.wedding_planner stream agent stdin)
    = Chat.turns stream (Chat.queries stdin) agent.
Proof.
  unfold Chat.personal_chef, Chat.wedding_planner. split.
  - destruct (chat_loop_run stream (Text.nl +:+ "Chef: ")
                (Text.nl +:+ "Bon appétit! Goodbye.") stdin agent
                Chat.CHEF_BANNER) as [out' ->].
    by destruct (Chat.after_quit stdin).
  - destruct (chat_loop_run stream (Text.nl +:+ "Planner: ")
                (Text.nl +:+ "Congratulations on your upcoming wedding! Goodbye.")
                stdin agent Chat.PLANNER_BANNER) as [out' ->].
    by destruct (Chat.after_quit stdin).
Qed.

(** X19. A chat loop stops on the first line that is a quit word ([quit],
    [exit] or [q], in any case, blanks around it ignored): it prints the
    goodbye line last and leaves the lines after it unread.  If no line is
    a quit word it reads all the input and fails with [EOFError] at the
    next prompt. *)
Theorem chat_loop_ends {Agent : Type}
    (stream : Agent → string → Agent * list string) (label goodbye : string)
    (agent : Agent) (stdin : list string) (out : list Chat.Out) :
  (∀ rest, Chat.after_quit stdin = Some rest →
     ∃ agent' out',
       Chat.chat_loop stream label goodbye agent stdin out
       = Chat.Quit agent' rest (out ++ out' ++ [Chat.Line goodbye]))
  ∧ (Chat.after_quit stdin = None →
     ∃ agent' out',
       Chat.chat_loop stream label goodbye agent stdin out
       = Chat.Eof agent' (out ++ out' ++ [Chat.Ask "You: "])).
Proof.
  destruct (chat_loop_run stream label goodbye stdin agent out) as [out' E].
  split.
  - intros rest H. rewrite H in E. eexists _, (out' ++ [Chat.Ask "You: "]).
    rewrite E. f_equal. by rewrite <- !app_assoc.
  - intros H. rewrite H in E. by eexists _, out'.
Qed.

Lemma chat_loop_ends_witness :
  ∃ agent' out',
    Chat.chat_loop (fun (n : nat) (_ : string) => (S n, ["Hi"; ""; "!"]))
                   (Text.nl +:+ "Chef: ") (Text.nl +:+ "Bon appétit! Goodbye.")
                   0 ["   "; "eggs and rice"; " QUIT "; "more"] []
    = Chat.Quit agent' ["more"]
        ([] ++ out' ++ [Chat.Line (Text.nl +:+ "Bon appétit! Goodbye.")]).
Proof.
  refine (proj1 (chat_loop_ends
                   (fun (n : nat) (_ : string) => (S n, ["Hi"; ""; "!"]))
                   (Text.nl +:+ "Chef: ") (Text.nl +:+ "Bon appétit! Goodbye.")
                   0 ["   "; "eggs and rice"; " QUIT "; "more"] []) ["more"] _).
  reflexivity.
Defined.
